(** * Cut calculator: a shallow embedding of the cut-plan computation

    This development embeds the two allocators of the cut calculator:
    - [Page.calculateOptimalCutPlan] (src/app/page.tsx), the kerf-aware
      allocator with unit conversion, and
    - [Component.calculateOptimalCutPlan]
      (src/components/aluminum-extrusion-calculator.tsx), the kerf-free one.

    JavaScript numbers are modelled by exact rationals [Q]; every length is a
    rational and comparisons are the exact ones ([Qle_bool]).  Quantities and
    bar counts are integers ([Z]).  The in-place mutation of the working list
    of cuts (the [cut.quantity--] inside the [for ... of] loop) is modelled by
    threading that list explicitly through the loops.  The working list is a
    fresh copy of the caller's cuts ([{...cut}] in both files), so no
    aliasing with the caller's state has to be modelled. *)

From Stdlib Require Import ZArith QArith Qabs Qround Lqa List Bool Lia.
From Stdlib Require Import Sorting.Permutation Sorting.Sorted Morphisms.
Import ListNotations.

Open Scope Q_scope.

(** ** Data model *)

(** [interface Cut { length: number; quantity: number; }] *)
Module Cut.
Record t := mk { length : Q; quantity : Z }.
End Cut.

(** [interface CutPlan { cuts: number[]; waste: number; }] *)
Module CutPlan.
Record t := mk { cuts : list Q; waste : Q }.
End CutPlan.

(** [type Unit = "mm" | "cm" | "m" | "in" | "ft" | "yd"] *)
Inductive Unit := mm | cm | m | inch | ft | yd.

(** [const unitConversions: Record<Unit, number>] *)
Definition unitConversions (u : Unit) : Q :=
  match u with
  | mm => 1
  | cm => 10
  | m => 1000
  | inch => 254 # 10
  | ft => 3048 # 10
  | yd => 9144 # 10
  end.

(** [convertToMm], [convertFromMm] and [getKerfInMm]; the unit is the
    component's [unit] (resp. [kerfUnit]) state they close over. *)
Definition convertToMm (unit : Unit) (value : Q) : Q :=
  value * unitConversions unit.

Definition convertFromMm (unit : Unit) (value : Q) : Q :=
  value / unitConversions unit.

Definition getKerfInMm (kerfWidth : Q) (kerfUnit : Unit) : Q :=
  kerfWidth * unitConversions kerfUnit.

(** ** Sorting: [arr.sort((a, b) => b.length - a.length)]

    [Array.prototype.sort] is stable (ECMAScript 2019 onwards), and the
    comparator is consistent on exact numbers, so the result is the unique
    stable sort: [a] is put before [b] when [compare(a, b) <= 0], that is
    when [b.length <= a.length].  The model is the stable insertion sort. *)

Definition cmp_le (a b : Cut.t) : bool :=
  Qle_bool (Cut.length b) (Cut.length a).

Fixpoint insert_desc (x : Cut.t) (l : list Cut.t) : list Cut.t :=
  match l with
  | [] => [x]
  | y :: l' => if cmp_le x y then x :: y :: l' else y :: insert_desc x l'
  end.

Fixpoint sort_desc (l : list Cut.t) : list Cut.t :=
  match l with
  | [] => []
  | x :: l' => insert_desc x (sort_desc l')
  end.

(** The order the sort establishes: non-increasing length. *)
Definition cut_desc (a b : Cut.t) : Prop := Cut.length b <= Cut.length a.

(** The entries of a working list with length [q]. *)
Definition same_length (q : Q) (c : Cut.t) : bool := Qeq_bool (Cut.length c) q.

(** ** The allocator of src/app/page.tsx *)

Module Page.

(** The inner loop
    [while (cut.quantity > 0 && remainingLength >= cut.length) {
       currentCuts.push(cut.length - kerfWidthMm);
       remainingLength -= cut.length; cut.quantity--; }].
    Each iteration decrements the quantity, so [Z.to_nat cut.quantity]
    iterations are enough for the loop to exit ([place_cut_exits]). *)
Fixpoint place_cut (fuel : nat) (kerfWidthMm : Q) (cut : Cut.t)
    (remainingLength : Q) (currentCuts : list Q) : Cut.t * Q * list Q :=
  match fuel with
  | O => (cut, remainingLength, currentCuts)
  | S fuel' =>
      if (0 <? Cut.quantity cut)%Z && Qle_bool (Cut.length cut) remainingLength
      then place_cut fuel' kerfWidthMm
             (Cut.mk (Cut.length cut) (Cut.quantity cut - 1)%Z)
             (remainingLength - Cut.length cut)
             (currentCuts ++ [Cut.length cut - kerfWidthMm])
      else (cut, remainingLength, currentCuts)
  end.

(** [for (const cut of remainingCuts) { ... }]: returns the updated working
    list, the remaining length and the cuts placed on the bar. *)
Fixpoint fill_bar (kerfWidthMm : Q) (remainingCuts : list Cut.t)
    (remainingLength : Q) (currentCuts : list Q) : list Cut.t * Q * list Q :=
  match remainingCuts with
  | [] => ([], remainingLength, currentCuts)
  | cut :: rest =>
      let '(cut', rl, cc) :=
        place_cut (Z.to_nat (Cut.quantity cut)) kerfWidthMm cut
          remainingLength currentCuts in
      let '(rest', rl', cc') := fill_bar kerfWidthMm rest rl cc in
      (cut' :: rest', rl', cc')
  end.

Definition has_demand (remainingCuts : list Cut.t) : bool :=
  existsb (fun cut => (0 <? Cut.quantity cut)%Z) remainingCuts.

(** [while (currentExtrusionIndex < numExtrusions &&
            remainingCuts.some((cut) => cut.quantity > 0)) { ... }] *)
Fixpoint main_loop (fuel : nat) (numExtrusions : Z) (stockLength kerfWidthMm : Q)
    (currentExtrusionIndex : Z) (remainingCuts : list Cut.t)
    (plans : list CutPlan.t) : Z * list Cut.t * list CutPlan.t :=
  match fuel with
  | O => (currentExtrusionIndex, remainingCuts, plans)
  | S fuel' =>
      if (currentExtrusionIndex <? numExtrusions)%Z && has_demand remainingCuts
      then
        let '(rc, remainingLength, currentCuts) :=
          fill_bar kerfWidthMm remainingCuts stockLength [] in
        main_loop fuel' numExtrusions stockLength kerfWidthMm
          (currentExtrusionIndex + 1)%Z rc
          (plans ++ [CutPlan.mk currentCuts remainingLength])
      else (currentExtrusionIndex, remainingCuts, plans)
  end.

(** [while (currentExtrusionIndex < numExtrusions) {
       plans.push({ cuts: [], waste: stockLength }); ... }] *)
Fixpoint pad_loop (fuel : nat) (numExtrusions : Z) (stockLength : Q)
    (currentExtrusionIndex : Z) (plans : list CutPlan.t) : Z * list CutPlan.t :=
  match fuel with
  | O => (currentExtrusionIndex, plans)
  | S fuel' =>
      if (currentExtrusionIndex <? numExtrusions)%Z
      then pad_loop fuel' numExtrusions stockLength (currentExtrusionIndex + 1)%Z
             (plans ++ [CutPlan.mk [] stockLength])
      else (currentExtrusionIndex, plans)
  end.

Definition convert_cut (unit : Unit) (kerfWidthMm : Q) (cut : Cut.t) : Cut.t :=
  Cut.mk (convertToMm unit (Cut.length cut) + kerfWidthMm) (Cut.quantity cut).

Definition convert_plan (unit : Unit) (plan : CutPlan.t) : CutPlan.t :=
  CutPlan.mk (map (convertFromMm unit) (CutPlan.cuts plan))
    (convertFromMm unit (CutPlan.waste plan)).

(** [calculateOptimalCutPlan], with the component state it reads as
    arguments. *)
Definition calculateOptimalCutPlan (numExtrusions : Z) (extrusionLength : Q)
    (cuts : list Cut.t) (unit : Unit) (kerfWidth : Q) (kerfUnit : Unit)
    : list CutPlan.t :=
  let stockLength := convertToMm unit extrusionLength in
  let kerfWidthMm := getKerfInMm kerfWidth kerfUnit in
  let convertedCuts := map (convert_cut unit kerfWidthMm) cuts in
  let sortedCuts := sort_desc convertedCuts in
  let remainingCuts := sortedCuts in
  let '(idx, _, plans) :=
    main_loop (Z.to_nat numExtrusions) numExtrusions stockLength kerfWidthMm
      0%Z remainingCuts [] in
  let '(_, plans') :=
    pad_loop (Z.to_nat numExtrusions) numExtrusions stockLength idx plans in
  map (convert_plan unit) plans'.

End Page.

(** ** The kerf-free allocator of src/components/aluminum-extrusion-calculator.tsx *)

Module Component.

(** [while (cut.quantity > 0 && remainingLength >= cut.length) {
       currentCuts.push(cut.length); remainingLength -= cut.length;
       cut.quantity-- }] *)
Fixpoint place_cut (fuel : nat) (cut : Cut.t) (remainingLength : Q)
    (currentCuts : list Q) : Cut.t * Q * list Q :=
  match fuel with
  | O => (cut, remainingLength, currentCuts)
  | S fuel' =>
      if (0 <? Cut.quantity cut)%Z && Qle_bool (Cut.length cut) remainingLength
      then place_cut fuel'
             (Cut.mk (Cut.length cut) (Cut.quantity cut - 1)%Z)
             (remainingLength - Cut.length cut)
             (currentCuts ++ [Cut.length cut])
      else (cut, remainingLength, currentCuts)
  end.

Fixpoint fill_bar (remainingCuts : list Cut.t) (remainingLength : Q)
    (currentCuts : list Q) : list Cut.t * Q * list Q :=
  match remainingCuts with
  | [] => ([], remainingLength, currentCuts)
  | cut :: rest =>
      let '(cut', rl, cc) :=
        place_cut (Z.to_nat (Cut.quantity cut)) cut remainingLength currentCuts in
      let '(rest', rl', cc') := fill_bar rest rl cc in
      (cut' :: rest', rl', cc')
  end.

Fixpoint main_loop (fuel : nat) (numExtrusions : Z) (extrusionLength : Q)
    (currentExtrusionIndex : Z) (remainingCuts : list Cut.t)
    (plans : list CutPlan.t) : Z * list Cut.t * list CutPlan.t :=
  match fuel with
  | O => (currentExtrusionIndex, remainingCuts, plans)
  | S fuel' =>
      if (currentExtrusionIndex <? numExtrusions)%Z && Page.has_demand remainingCuts
      then
        let '(rc, remainingLength, currentCuts) :=
          fill_bar remainingCuts extrusionLength [] in
        main_loop fuel' numExtrusions extrusionLength
          (currentExtrusionIndex + 1)%Z rc
          (plans ++ [CutPlan.mk currentCuts remainingLength])
      else (currentExtrusionIndex, remainingCuts, plans)
  end.

Fixpoint pad_loop (fuel : nat) (numExtrusions : Z) (extrusionLength : Q)
    (currentExtrusionIndex : Z) (plans : list CutPlan.t) : Z * list CutPlan.t :=
  match fuel with
  | O => (currentExtrusionIndex, plans)
  | S fuel' =>
      if (currentExtrusionIndex <? numExtrusions)%Z
      then pad_loop fuel' numExtrusions extrusionLength (currentExtrusionIndex + 1)%Z
             (plans ++ [CutPlan.mk [] extrusionLength])
      else (currentExtrusionIndex, plans)
  end.

(** [calculateOptimalCutPlan] of the component file: no units, no kerf. *)
Definition calculateOptimalCutPlan (numExtrusions : Z) (extrusionLength : Q)
    (cuts : list Cut.t) : list CutPlan.t :=
  let sortedCuts :=
    sort_desc (map (fun cut => Cut.mk (Cut.length cut) (Cut.quantity cut)) cuts) in
  let remainingCuts := sortedCuts in
  let '(idx, _, plans) :=
    main_loop (Z.to_nat numExtrusions) numExtrusions extrusionLength 0%Z
      remainingCuts [] in
  let '(_, plans') :=
    pad_loop (Z.to_nat numExtrusions) numExtrusions extrusionLength idx plans in
  plans'.

End Component.

(** ** Auxiliary notions used in the statements *)

(** Sum of a list of lengths. *)
Definition Qsum (l : list Q) : Q := fold_right Qplus 0 l.

(** Two plans are equal as numbers: same cut lengths, same waste. *)
Definition plan_eq (p q : CutPlan.t) : Prop :=
  Forall2 Qeq (CutPlan.cuts p) (CutPlan.cuts q) /\ CutPlan.waste p == CutPlan.waste q.

(** Two cut requests are equal as numbers. *)
Definition cut_eq (a b : Cut.t) : Prop :=
  Cut.length a == Cut.length b /\ Cut.quantity a = Cut.quantity b.

(** Number of placed cuts selected by [tc] over a plan sequence. *)
Definition plan_count (tc : Q -> bool) (plans : list CutPlan.t) : nat :=
  fold_right (fun p acc => (List.length (filter tc (CutPlan.cuts p)) + acc)%nat)
    0%nat plans.

(** Number of placed cuts of length [len] over a plan sequence. *)
Definition placed_count (len : Q) (plans : list CutPlan.t) : nat :=
  plan_count (fun c => Qeq_bool c len) plans.

(** Quantity still pending in a working list, over the entries whose length
    is selected by [te] (a negative quantity places nothing). *)
Definition pending (te : Q -> bool) (rc : list Cut.t) : Z :=
  fold_right (fun c acc =>
    ((if te (Cut.length c) then Z.max 0 (Cut.quantity c) else 0) + acc)%Z) 0%Z rc.

(** Total requested quantity of the requests of length [len]. *)
Definition requested (len : Q) (cuts : list Cut.t) : Z :=
  fold_right (fun c acc => ((if Qeq_bool (Cut.length c) len then Cut.quantity c else 0) + acc)%Z)
    0%Z cuts.

(** ** The component state and its summary (both files) *)

(** [totalCutsNeeded = cuts.reduce((acc, cut) => acc + cut.quantity, 0)] *)
Definition totalCutsNeeded (cuts : list Cut.t) : Z :=
  fold_left (fun acc cut => (acc + Cut.quantity cut)%Z) cuts 0%Z.

(** [totalCutsMade = cutPlans.reduce((acc, plan) => acc + plan.cuts.length, 0)] *)
Definition totalCutsMade (cutPlans : list CutPlan.t) : Z :=
  fold_left (fun acc plan => (acc + Z.of_nat (List.length (CutPlan.cuts plan)))%Z)
    cutPlans 0%Z.

(** The total waste of the summary, before its [toFixed(1)] formatting:
    [cutPlans.reduce((sum, plan) => sum + plan.waste, 0)] *)
Definition totalWaste (cutPlans : list CutPlan.t) : Q :=
  fold_left (fun sum plan => sum + CutPlan.waste plan) cutPlans 0.

(** The per-row summary:
    [cutPlans.reduce((sum, plan) =>
       sum + plan.cuts.filter((c) => c === cut.length).length, 0)] *)
Definition rowPlacedCount (cutPlans : list CutPlan.t) (cut : Cut.t) : nat :=
  fold_left (fun sum plan =>
    (sum + List.length (filter (fun c => Qeq_bool c (Cut.length cut)) (CutPlan.cuts plan)))%nat)
    cutPlans 0%nat.

(** [cutPlans.filter((plan) => plan.cuts.length > 0).length] *)
Definition extrusionsUsed (cutPlans : list CutPlan.t) : nat :=
  List.length (filter (fun plan => Nat.ltb 0 (List.length (CutPlan.cuts plan))) cutPlans).

(** The red "Exceeds extrusion length" flag of a cut row (page.tsx):
    [convertToMm(cut.length) > convertToMm(extrusionLength)] *)
Definition exceedsExtrusionLength (unit : Unit) (extrusionLength : Q) (cut : Cut.t) : bool :=
  negb (Qle_bool (convertToMm unit (Cut.length cut)) (convertToMm unit extrusionLength)).

(** [addCut]: [[...prevCuts, { length: 100, quantity: 1 }]] *)
Definition addCut (prevCuts : list Cut.t) : list Cut.t :=
  prevCuts ++ [Cut.mk 100 1].

(** The two fields [updateCut] writes, with the value each call site passes. *)
Inductive CutField := FieldLength (value : Q) | FieldQuantity (value : Z).

Definition set_field (field : CutField) (cut : Cut.t) : Cut.t :=
  match field with
  | FieldLength v => Cut.mk v (Cut.quantity cut)
  | FieldQuantity v => Cut.mk (Cut.length cut) v
  end.

(** [updateCut]: [const updatedCuts = [...prevCuts];
    updatedCuts[index][field] = value].  Out of range, [updatedCuts[index]]
    is [undefined] and the assignment throws a [TypeError] ([None]). *)
Fixpoint updateCut (prevCuts : list Cut.t) (index : nat) (field : CutField)
    : option (list Cut.t) :=
  match prevCuts, index with
  | [], _ => None
  | cut :: rest, O => Some (set_field field cut :: rest)
  | cut :: rest, S index' =>
      option_map (fun rest' => cut :: rest') (updateCut rest index' field)
  end.

(** [Array.prototype.filter] with the element index. *)
Fixpoint filteri_from {A} (f : nat -> A -> bool) (i : nat) (l : list A) : list A :=
  match l with
  | [] => []
  | x :: l' => if f i x then x :: filteri_from f (S i) l' else filteri_from f (S i) l'
  end.

(** [removeCut]: [prevCuts.filter((_, i) => i !== index)] *)
Definition removeCut (prevCuts : list Cut.t) (index : nat) : list Cut.t :=
  filteri_from (fun i _ => negb (Nat.eqb i index)) 0 prevCuts.

(** [Number(x.toFixed(2))] over exact numbers: [toFixed] picks the integer
    [n] with [n / 100] closest to [x], the larger one on a tie, after taking
    the sign apart; from [10^21] on it returns [ToString(x)], which [Number]
    reads back as [x]. *)
Definition toFixed2 (x : Q) : Q :=
  if Qle_bool (inject_Z (10 ^ 21)) (Qabs x) then x
  else if Qle_bool 0 x then inject_Z (Qfloor (x * 100 + (1 # 2))) / 100
  else - (inject_Z (Qfloor (- x * 100 + (1 # 2))) / 100).

(** The [useEffect] run when [unit] changes (page.tsx):
    [setExtrusionLength((prev) =>
       Number(((prev * unitConversions[unit]) / unitConversions[unit]).toFixed(2)))]
    and the same on every cut length, quantities untouched. *)
Definition unitChangeLength (unit : Unit) (prev : Q) : Q :=
  toFixed2 ((prev * unitConversions unit) / unitConversions unit).


(** ** Loop invariants of the page allocator *)

Lemma Qsum_app (l1 l2 : list Q) : Qsum (l1 ++ l2) == Qsum l1 + Qsum l2.
Proof.
  induction l1 as [|x l1 IH]; simpl.
  - ring.
  - rewrite IH; ring.
Qed.

Lemma inject_Z_length_app1 {A} (l : list A) (x : A) :
  inject_Z (Z.of_nat (List.length (l ++ [x]))) == inject_Z (Z.of_nat (List.length l)) + 1.
Proof.
  rewrite length_app, Nat2Z.inj_add, inject_Z_plus; reflexivity.
Qed.

Section PageLoops.

Variable kerfWidthMm : Q.

(** The guard of the inner [while] loop. *)
Ltac guard_cases G :=
  match goal with
  | H : context [ (0 <? Cut.quantity ?c)%Z && Qle_bool (Cut.length ?c) ?r ] |- _ =>
      destruct ((0 <? Cut.quantity c)%Z && Qle_bool (Cut.length c) r) eqn:G
  | |- context [ (0 <? Cut.quantity ?c)%Z && Qle_bool (Cut.length ?c) ?r ] =>
      destruct ((0 <? Cut.quantity c)%Z && Qle_bool (Cut.length c) r) eqn:G
  end.

Ltac guard_true G :=
  apply andb_true_iff in G as [?G1 ?G2];
  apply Z.ltb_lt in G1; apply Qle_bool_iff in G2.

(** An invariant of one iteration of the inner loop holds at its exit. *)
Lemma place_cut_inv (Inv : Cut.t -> Q -> list Q -> Prop) :
  (forall c rem cc, (0 < Cut.quantity c)%Z -> Cut.length c <= rem -> Inv c rem cc ->
     Inv (Cut.mk (Cut.length c) (Cut.quantity c - 1)) (rem - Cut.length c)
         (cc ++ [Cut.length c - kerfWidthMm])) ->
  forall fuel c rem cc c' rem' cc',
  Inv c rem cc ->
  Page.place_cut fuel kerfWidthMm c rem cc = (c', rem', cc') -> Inv c' rem' cc'.
Proof.
  intros Hstep fuel; induction fuel as [|fuel IH];
    intros c rem cc c' rem' cc' HI Hpc; simpl in Hpc.
  - inversion Hpc; subst; assumption.
  - guard_cases G.
    + guard_true G. eapply IH; [apply Hstep; eauto | exact Hpc].
    + inversion Hpc; subst; assumption.
Qed.

(** The inner loop does not change the length of the cut. *)
Lemma place_cut_length fuel c rem cc c' rem' cc' :
  Page.place_cut fuel kerfWidthMm c rem cc = (c', rem', cc') ->
  Cut.length c' = Cut.length c.
Proof.
  apply (place_cut_inv (fun c1 _ _ => Cut.length c1 = Cut.length c)); auto.
Qed.

(** The inner loop exits: with [Z.to_nat cut.quantity] iterations the guard
    is false at the end. *)
Lemma place_cut_exits c rem cc c' rem' cc' :
  Page.place_cut (Z.to_nat (Cut.quantity c)) kerfWidthMm c rem cc = (c', rem', cc') ->
  ((0 <? Cut.quantity c')%Z && Qle_bool (Cut.length c') rem') = false.
Proof.
  remember (Z.to_nat (Cut.quantity c)) as fuel eqn:Hf.
  revert c rem cc Hf; induction fuel as [|fuel IH]; intros c rem cc Hf Hpc; simpl in Hpc.
  - inversion Hpc; subst.
    destruct (0 <? Cut.quantity c')%Z eqn:Q; [apply Z.ltb_lt in Q; lia | reflexivity].
  - guard_cases G.
    + guard_true G. eapply IH; [| exact Hpc]; cbn; lia.
    + inversion Hpc; subst; exact G.
Qed.

(** An invariant of the remaining length and of the placed cuts, preserved
    by every placement of a cut whose length satisfies [Pc], holds at the
    end of the [for ... of] loop. *)
Lemma fill_bar_inv (Pc : Q -> Prop) (J : Q -> list Q -> Prop) :
  (forall c rem cc, Pc (Cut.length c) -> (0 < Cut.quantity c)%Z ->
     Cut.length c <= rem -> J rem cc ->
     J (rem - Cut.length c) (cc ++ [Cut.length c - kerfWidthMm])) ->
  forall rc rem cc rc' rem' cc',
  Forall (fun c => Pc (Cut.length c)) rc -> J rem cc ->
  Page.fill_bar kerfWidthMm rc rem cc = (rc', rem', cc') -> J rem' cc'.
Proof.
  intros Hstep rc; induction rc as [|c rc IH];
    intros rem cc rc' rem' cc' HP HJ Hfb; simpl in Hfb.
  - inversion Hfb; subst; assumption.
  - inversion HP as [|? ? Hc HP']; subst.
    destruct (Page.place_cut _ _ c rem cc) as [[c1 rem1] cc1] eqn:E1.
    destruct (Page.fill_bar kerfWidthMm rc rem1 cc1) as [[rc2 rem2] cc2] eqn:E2.
    inversion Hfb; subst.
    eapply IH; [exact HP' | | exact E2].
    apply (place_cut_inv (fun c0 r0 l0 => Pc (Cut.length c0) /\ J r0 l0)) in E1;
      [tauto | | tauto].
    intros c0 r0 l0 Hq Hle [H1 H2]; simpl; auto.
Qed.

(** The [for ... of] loop changes quantities only. *)
Lemma fill_bar_lengths rc rem cc rc' rem' cc' :
  Page.fill_bar kerfWidthMm rc rem cc = (rc', rem', cc') ->
  map Cut.length rc' = map Cut.length rc.
Proof.
  revert rem cc rc'; induction rc as [|c rc IH]; intros rem cc rc' Hfb; simpl in Hfb.
  - inversion Hfb; reflexivity.
  - destruct (Page.place_cut _ _ c rem cc) as [[c1 rem1] cc1] eqn:E1.
    destruct (Page.fill_bar kerfWidthMm rc rem1 cc1) as [[rc2 rem2] cc2] eqn:E2.
    inversion Hfb; subst; simpl.
    rewrite (place_cut_length _ _ _ _ _ _ _ E1), (IH _ _ _ E2); reflexivity.
Qed.

End PageLoops.

(** A bar on which the [for ... of] loop places nothing leaves the working
    list and the remaining length unchanged. *)
Lemma place_cut_nochange k fuel c rem cc c' rem' cc' :
  Page.place_cut fuel k c rem cc = (c', rem', cc') ->
  (c' = c /\ rem' = rem /\ cc' = cc) \/ (List.length cc < List.length cc')%nat.
Proof.
  apply (place_cut_inv k (fun c1 r1 l1 =>
           (c1 = c /\ r1 = rem /\ l1 = cc) \/ (List.length cc < List.length l1)%nat)).
  - intros c0 r0 l0 _ _ [[-> [-> ->]] | Hlt]; right; rewrite length_app; simpl; lia.
  - left; auto.
Qed.

Lemma fill_bar_nochange k rc rem cc rc' rem' cc' :
  Page.fill_bar k rc rem cc = (rc', rem', cc') ->
  (List.length cc <= List.length cc')%nat /\
  (List.length cc' = List.length cc -> rc' = rc /\ rem' = rem).
Proof.
  revert rem cc rc'; induction rc as [|c rc IH]; intros rem cc rc' Hfb; simpl in Hfb.
  - inversion Hfb; subst; auto.
  - destruct (Page.place_cut _ _ c rem cc) as [[c1 rem1] cc1] eqn:E1.
    destruct (Page.fill_bar k rc rem1 cc1) as [[rc2 rem2] cc2] eqn:E2.
    inversion Hfb; subst.
    destruct (IH _ _ _ E2) as [Hle Heq].
    destruct (place_cut_nochange _ _ _ _ _ _ _ _ E1) as [[-> [-> ->]] | Hlt].
    + split; [exact Hle|]. intros Hl. destruct (Heq Hl) as [-> ->]; auto.
    + split; [lia|]. intros Hl; lia.
Qed.

(** ** The bar loops of the page allocator *)

Section PageBars.

Variables (numExtrusions : Z) (stockLength kerfWidthMm : Q).

Lemma main_loop_inv (Inv : list Cut.t -> list CutPlan.t -> Prop) :
  (forall rc ps rc' rem cur, Inv rc ps ->
     Page.fill_bar kerfWidthMm rc stockLength [] = (rc', rem, cur) ->
     Inv rc' (ps ++ [CutPlan.mk cur rem])) ->
  forall fuel idx rc ps idx' rc' ps', Inv rc ps ->
  Page.main_loop fuel numExtrusions stockLength kerfWidthMm idx rc ps = (idx', rc', ps') ->
  Inv rc' ps'.
Proof.
  intros Hstep fuel; induction fuel as [|fuel IH];
    intros idx rc ps idx' rc' ps' HI Hml; simpl in Hml.
  - inversion Hml; subst; assumption.
  - destruct ((idx <? numExtrusions)%Z && Page.has_demand rc).
    + destruct (Page.fill_bar kerfWidthMm rc stockLength []) as [[rc1 rem1] cur1] eqn:E.
      eapply IH; [eapply Hstep; eauto | exact Hml].
    + inversion Hml; subst; assumption.
Qed.

Lemma pad_loop_inv (Inv : list CutPlan.t -> Prop) :
  (forall ps, Inv ps -> Inv (ps ++ [CutPlan.mk [] stockLength])) ->
  forall fuel idx ps idx' ps', Inv ps ->
  Page.pad_loop fuel numExtrusions stockLength idx ps = (idx', ps') -> Inv ps'.
Proof.
  intros Hstep fuel; induction fuel as [|fuel IH]; intros idx ps idx' ps' HI Hpl;
    simpl in Hpl.
  - inversion Hpl; subst; assumption.
  - destruct (idx <? numExtrusions)%Z.
    + eapply IH; [apply Hstep; exact HI | exact Hpl].
    + inversion Hpl; subst; assumption.
Qed.

(** The main loop appends one plan per bar index it consumes, and never goes
    past [numExtrusions]. *)
Lemma main_loop_shape fuel idx rc ps idx' rc' ps' :
  Page.main_loop fuel numExtrusions stockLength kerfWidthMm idx rc ps = (idx', rc', ps') ->
  exists nw, ps' = ps ++ nw /\ idx' = (idx + Z.of_nat (List.length nw))%Z /\
             (idx' <= Z.max idx numExtrusions)%Z.
Proof.
  revert idx rc ps; induction fuel as [|fuel IH]; intros idx rc ps Hml; simpl in Hml.
  - inversion Hml; subst. exists []. rewrite app_nil_r. simpl. split; [reflexivity|lia].
  - destruct ((idx <? numExtrusions)%Z && Page.has_demand rc) eqn:G.
    + apply andb_true_iff in G as [G _]; apply Z.ltb_lt in G.
      destruct (Page.fill_bar kerfWidthMm rc stockLength []) as [[rc1 rem1] cur1] eqn:E.
      destruct (IH _ _ _ Hml) as [nw [-> [-> Hmax]]].
      exists (CutPlan.mk cur1 rem1 :: nw). rewrite <- app_assoc. simpl.
      split; [reflexivity|]. split; lia.
    + inversion Hml; subst. exists []. rewrite app_nil_r. simpl. split; [reflexivity|lia].
Qed.

(** With enough fuel the padding loop appends empty plans up to
    [numExtrusions]. *)
Lemma pad_loop_shape fuel idx ps idx' ps' :
  (Z.to_nat (numExtrusions - idx) <= fuel)%nat ->
  Page.pad_loop fuel numExtrusions stockLength idx ps = (idx', ps') ->
  ps' = ps ++ repeat (CutPlan.mk [] stockLength) (Z.to_nat (numExtrusions - idx)).
Proof.
  revert idx ps; induction fuel as [|fuel IH]; intros idx ps Hf Hpl; simpl in Hpl.
  - replace (Z.to_nat (numExtrusions - idx)) with 0%nat by lia.
    inversion Hpl; subst. simpl; rewrite app_nil_r; reflexivity.
  - destruct (idx <? numExtrusions)%Z eqn:G.
    + apply Z.ltb_lt in G.
      rewrite (IH (idx + 1)%Z _ ltac:(lia) Hpl), <- app_assoc.
      replace (Z.to_nat (numExtrusions - idx)) with (S (Z.to_nat (numExtrusions - (idx + 1)))) by lia.
      reflexivity.
    + apply Z.ltb_ge in G.
      replace (Z.to_nat (numExtrusions - idx)) with 0%nat by lia.
      inversion Hpl; subst. simpl; rewrite app_nil_r; reflexivity.
Qed.

(** Once a bar places nothing, the working list is stuck and every later
    bar of the main loop is empty too. *)
Lemma main_loop_stuck fuel idx rc ps idx' rc' ps' :
  Page.fill_bar kerfWidthMm rc stockLength [] = (rc, stockLength, []) ->
  Page.main_loop fuel numExtrusions stockLength kerfWidthMm idx rc ps = (idx', rc', ps') ->
  exists b, ps' = ps ++ b /\ Forall (fun p => CutPlan.cuts p = []) b.
Proof.
  intros Hst Hml.
  apply (main_loop_inv (fun rc1 ps1 =>
           rc1 = rc /\ exists b, ps1 = ps ++ b /\ Forall (fun p => CutPlan.cuts p = []) b))
    in Hml; [tauto| |].
  - intros rc1 ps1 rc2 rem cur [-> [b [-> Hb]]] E.
    rewrite Hst in E; injection E as <- <- <-.
    split; [reflexivity|]. exists (b ++ [CutPlan.mk [] stockLength]).
    rewrite app_assoc; split; [reflexivity|].
    apply Forall_app; split; [exact Hb | constructor; [reflexivity | constructor]].
  - split; [reflexivity|]. exists []. rewrite app_nil_r; split; [reflexivity | constructor].
Qed.

(** The plans appended by the main loop are non-empty ones followed by empty
    ones. *)
Lemma main_loop_suffix fuel idx rc ps idx' rc' ps' :
  Page.main_loop fuel numExtrusions stockLength kerfWidthMm idx rc ps = (idx', rc', ps') ->
  exists a b, ps' = ps ++ a ++ b /\ Forall (fun p => CutPlan.cuts p <> []) a /\
              Forall (fun p => CutPlan.cuts p = []) b.
Proof.
  revert idx rc ps; induction fuel as [|fuel IH]; intros idx rc ps Hml; simpl in Hml.
  - inversion Hml; subst. exists [], []. rewrite app_nil_r. repeat split; constructor.
  - destruct ((idx <? numExtrusions)%Z && Page.has_demand rc) eqn:G.
    + destruct (Page.fill_bar kerfWidthMm rc stockLength []) as [[rc1 rem1] cur1] eqn:E.
      destruct cur1 as [|x cur1].
      * destruct (fill_bar_nochange _ _ _ _ _ _ _ E) as [_ Hnc].
        destruct (Hnc eq_refl) as [-> ->].
        destruct (main_loop_stuck _ _ _ _ _ _ _ E Hml) as [b [-> Hb]].
        exists [], (CutPlan.mk [] stockLength :: b). rewrite <- app_assoc.
        repeat split; [constructor | constructor; [reflexivity | exact Hb]].
      * destruct (IH _ _ _ Hml) as [a [b [-> [Ha Hb]]]].
        exists (CutPlan.mk (x :: cur1) rem1 :: a), b. rewrite <- app_assoc.
        repeat split; [|exact Hb]. constructor; [simpl; discriminate | exact Ha].
    + inversion Hml; subst. exists [], []. rewrite app_nil_r. repeat split; constructor.
Qed.

End PageBars.

(** ** Unit conversions *)

Lemma unitConversions_pos (u : Unit) : 0 < unitConversions u.
Proof. destruct u; reflexivity. Qed.

Lemma unitConversions_nonzero (u : Unit) : ~ unitConversions u == 0.
Proof. destruct u; discriminate. Qed.

Lemma convertToMm_convertFromMm (u : Unit) (x : Q) :
  convertToMm u (convertFromMm u x) == x.
Proof.
  unfold convertToMm, convertFromMm.
  rewrite Qmult_comm; apply Qmult_div_r, unitConversions_nonzero.
Qed.

Lemma convertFromMm_convertToMm (u : Unit) (x : Q) :
  convertFromMm u (convertToMm u x) == x.
Proof.
  unfold convertToMm, convertFromMm; apply Qdiv_mult_l, unitConversions_nonzero.
Qed.

#[global] Instance convertToMm_Proper (u : Unit) : Proper (Qeq ==> Qeq) (convertToMm u).
Proof. intros x y H; unfold convertToMm; rewrite H; reflexivity. Qed.

#[global] Instance convertFromMm_Proper (u : Unit) : Proper (Qeq ==> Qeq) (convertFromMm u).
Proof. intros x y H; unfold convertFromMm; rewrite H; reflexivity. Qed.

Lemma Qsum_map_convert (u : Unit) (l : list Q) :
  Qsum (map (convertToMm u) (map (convertFromMm u) l)) == Qsum l.
Proof.
  induction l as [|x l IH]; simpl; [reflexivity|].
  rewrite IH, convertToMm_convertFromMm; reflexivity.
Qed.

(** ** The plan sequence of the page allocator *)

Lemma calculateOptimalCutPlan_cases n L cs u kw ku :
  exists idx rc ps idx2 ps2,
    Page.main_loop (Z.to_nat n) n (convertToMm u L) (getKerfInMm kw ku) 0%Z
      (sort_desc (map (Page.convert_cut u (getKerfInMm kw ku)) cs)) [] = (idx, rc, ps) /\
    Page.pad_loop (Z.to_nat n) n (convertToMm u L) idx ps = (idx2, ps2) /\
    Page.calculateOptimalCutPlan n L cs u kw ku = map (Page.convert_plan u) ps2.
Proof.
  unfold Page.calculateOptimalCutPlan.
  destruct (Page.main_loop _ _ _ _ _ _ _) as [[idx rc] ps] eqn:E1.
  destruct (Page.pad_loop _ _ _ idx ps) as [idx2 ps2] eqn:E2.
  exists idx, rc, ps, idx2, ps2; auto.
Qed.

(** A property of every returned plan, proved from an invariant [I] of the
    working list that every bar preserves. *)
Lemma calculateOptimalCutPlan_Forall (P : CutPlan.t -> Prop) (I : list Cut.t -> Prop)
    n L cs u kw ku :
  I (sort_desc (map (Page.convert_cut u (getKerfInMm kw ku)) cs)) ->
  (forall rc rc' rem cur, I rc ->
     Page.fill_bar (getKerfInMm kw ku) rc (convertToMm u L) [] = (rc', rem, cur) ->
     I rc' /\ P (Page.convert_plan u (CutPlan.mk cur rem))) ->
  P (Page.convert_plan u (CutPlan.mk [] (convertToMm u L))) ->
  Forall P (Page.calculateOptimalCutPlan n L cs u kw ku).
Proof.
  intros HI0 Hbar Hpad.
  destruct (calculateOptimalCutPlan_cases n L cs u kw ku)
    as [idx [rc [ps [idx2 [ps2 [E1 [E2 ->]]]]]]].
  apply Forall_map.
  apply (main_loop_inv _ _ _ (fun rc1 ps1 => I rc1 /\
           Forall (fun p => P (Page.convert_plan u p)) ps1)) in E1.
  - apply (pad_loop_inv _ _ (Forall (fun p => P (Page.convert_plan u p)))) in E2;
      [exact E2 | | tauto].
    intros ps1 H1. apply Forall_app; split; [exact H1 | constructor; [exact Hpad | constructor]].
  - intros rc1 ps1 rc2 rem cur [H1 H2] E.
    destruct (Hbar _ _ _ _ H1 E) as [H3 H4].
    split; [exact H3|]. apply Forall_app; split; [exact H2 | constructor; [exact H4 | constructor]].
  - split; [exact HI0 | constructor].
Qed.

(** Conservation of length on one bar, in canonical units. *)
Lemma fill_bar_conservation k s rc rem cc rc' rem' cc' :
  Qsum cc + k * inject_Z (Z.of_nat (List.length cc)) + rem == s ->
  Page.fill_bar k rc rem cc = (rc', rem', cc') ->
  Qsum cc' + k * inject_Z (Z.of_nat (List.length cc')) + rem' == s.
Proof.
  intros H0 Hfb.
  apply (fill_bar_inv k (fun _ => True)
           (fun r l => Qsum l + k * inject_Z (Z.of_nat (List.length l)) + r == s))
    with (rc := rc) (rem := rem) (cc := cc) (rc' := rc'); auto.
  - intros c r l _ _ _ Hl. rewrite Qsum_app, inject_Z_length_app1, <- Hl. simpl; ring.
  - clear. induction rc; constructor; auto.
Qed.

(** The remaining length never becomes negative on a bar started with a
    non-negative length. *)
Lemma fill_bar_nonneg k rc rem cc rc' rem' cc' :
  0 <= rem -> Page.fill_bar k rc rem cc = (rc', rem', cc') -> 0 <= rem'.
Proof.
  intros H0 Hfb.
  apply (fill_bar_inv k (fun _ => True) (fun r _ => 0 <= r))
    with (rc := rc) (rem := rem) (cc := cc) (rc' := rc') (cc' := cc'); auto.
  - intros c r l _ _ Hle _. apply Qle_minus_iff in Hle. exact Hle.
  - clear. induction rc; constructor; auto.
Qed.

(** Every cut placed on a bar, together with its kerf, fits in the stock
    length, provided the working lengths are non-negative. *)
Lemma fill_bar_fits k s rc rem cc rc' rem' cc' :
  Forall (fun c => 0 <= Cut.length c) rc -> rem <= s ->
  Forall (fun x => x + k <= s) cc ->
  Page.fill_bar k rc rem cc = (rc', rem', cc') ->
  rem' <= s /\ Forall (fun x => x + k <= s) cc'.
Proof.
  intros Hrc Hrem Hcc Hfb.
  apply (fill_bar_inv k (fun l => 0 <= l)
           (fun r l => r <= s /\ Forall (fun x => x + k <= s) l))
    with (rc := rc) (rem := rem) (cc := cc) (rc' := rc'); auto.
  intros c r l Hpos _ Hle [Hr Hl]. split.
  - apply Qle_trans with r; [|exact Hr].
    apply Qle_minus_iff. setoid_replace (r + - (r - Cut.length c)) with (Cut.length c) by ring.
    exact Hpos.
  - apply Forall_app; split; [exact Hl|]. constructor; [|constructor].
    setoid_replace (Cut.length c - k + k) with (Cut.length c) by ring.
    apply Qle_trans with r; assumption.
Qed.

Lemma Forall_lengths (P : Q -> Prop) (rc rc' : list Cut.t) :
  map Cut.length rc' = map Cut.length rc ->
  Forall (fun c => P (Cut.length c)) rc -> Forall (fun c => P (Cut.length c)) rc'.
Proof.
  intros E H. apply Forall_map. rewrite E. apply Forall_map. exact H.
Qed.

(** ** The sort *)

Lemma insert_desc_perm (x : Cut.t) (l : list Cut.t) :
  Permutation (insert_desc x l) (x :: l).
Proof.
  induction l as [|y l IH]; simpl; [reflexivity|].
  destruct (cmp_le x y); [reflexivity|].
  rewrite IH. apply perm_swap.
Qed.

Lemma sort_desc_perm (l : list Cut.t) : Permutation (sort_desc l) l.
Proof.
  induction l as [|x l IH]; simpl; [reflexivity|].
  rewrite insert_desc_perm, IH; reflexivity.
Qed.

(** ** Plan count *)

Lemma calculateOptimalCutPlan_length n L cs u kw ku :
  List.length (Page.calculateOptimalCutPlan n L cs u kw ku) = Z.to_nat n.
Proof.
  destruct (calculateOptimalCutPlan_cases n L cs u kw ku)
    as [idx [rc [ps [idx2 [ps2 [E1 [E2 ->]]]]]]].
  destruct (main_loop_shape _ _ _ _ _ _ _ _ _ _ E1) as [nw [-> [Hidx Hmax]]].
  simpl in Hidx.
  rewrite (pad_loop_shape n _ (Z.to_nat n) idx ([] ++ nw) idx2 ps2 ltac:(lia) E2).
  rewrite length_map, length_app, repeat_length; simpl. lia.
Qed.

(** An empty plan of the page allocator wastes the whole bar. *)
Lemma calculateOptimalCutPlan_empty_waste n L cs u kw ku :
  Forall (fun p => CutPlan.cuts p = [] -> CutPlan.waste p == L)
    (Page.calculateOptimalCutPlan n L cs u kw ku).
Proof.
  apply calculateOptimalCutPlan_Forall with (I := fun _ => True); [exact Logic.I | |].
  - intros rc rc' rem cur _ E. split; [exact Logic.I|]. simpl.
    intros Hnil. destruct cur; [|discriminate].
    destruct (fill_bar_nochange _ _ _ _ _ _ _ E) as [_ Hnc].
    destruct (Hnc eq_refl) as [_ ->]. apply convertFromMm_convertToMm.
  - intros _; simpl; apply convertFromMm_convertToMm.
Qed.

(** ** Empty plans *)

Lemma calculateOptimalCutPlan_suffix n L cs u kw ku :
  exists a b, Page.calculateOptimalCutPlan n L cs u kw ku = a ++ b /\
    Forall (fun p => CutPlan.cuts p <> []) a /\ Forall (fun p => CutPlan.cuts p = []) b.
Proof.
  destruct (calculateOptimalCutPlan_cases n L cs u kw ku)
    as [idx [rc [ps [idx2 [ps2 [E1 [E2 ->]]]]]]].
  destruct (main_loop_suffix _ _ _ _ _ _ _ _ _ _ E1) as [a [b [Hps [Ha Hb]]]].
  simpl in Hps; subst ps.
  apply (pad_loop_inv _ _ (fun ps1 => exists c, ps1 = a ++ b ++ c /\
           Forall (fun p => CutPlan.cuts p = []) c)) in E2.
  - destruct E2 as [c [-> Hc]].
    exists (map (Page.convert_plan u) a), (map (Page.convert_plan u) (b ++ c)).
    rewrite map_app. split; [reflexivity|]. split.
    + apply Forall_map. eapply Forall_impl; [|exact Ha].
      intros p Hp Hnil; apply map_eq_nil in Hnil; contradiction.
    + apply Forall_map. eapply Forall_impl; [|apply Forall_app; split; [exact Hb|exact Hc]].
      intros p Hp; simpl. rewrite Hp; reflexivity.
  - intros ps1 [c [-> Hc]]. exists (c ++ [CutPlan.mk [] (convertToMm u L)]).
    rewrite !app_assoc. split; [reflexivity|].
    apply Forall_app; split; [exact Hc | constructor; [reflexivity | constructor]].
  - exists []. rewrite !app_nil_r. split; [reflexivity | constructor].
Qed.

(** ** Placed cuts fit *)

Lemma convert_cuts_nonneg u kw ku cs :
  0 <= kw -> Forall (fun c => 0 <= Cut.length c) cs ->
  Forall (fun c => 0 <= Cut.length c)
    (sort_desc (map (Page.convert_cut u (getKerfInMm kw ku)) cs)).
Proof.
  intros Hk Hcs. rewrite (sort_desc_perm _). apply Forall_map.
  eapply Forall_impl; [|exact Hcs]. intros c Hc; simpl.
  unfold convertToMm, getKerfInMm.
  pose proof (unitConversions_pos u). pose proof (unitConversions_pos ku).
  setoid_replace 0 with (0 + 0) by ring.
  apply Qplus_le_compat; apply Qmult_le_0_compat; auto; apply Qlt_le_weak; assumption.
Qed.

Lemma calculateOptimalCutPlan_fits n L cs u kw ku :
  0 <= kw -> Forall (fun c => 0 <= Cut.length c) cs ->
  Forall (fun p => Forall (fun c => convertToMm u c + getKerfInMm kw ku <= convertToMm u L)
                     (CutPlan.cuts p))
    (Page.calculateOptimalCutPlan n L cs u kw ku).
Proof.
  intros Hk Hcs.
  apply calculateOptimalCutPlan_Forall
    with (I := Forall (fun c => 0 <= Cut.length c)).
  - apply convert_cuts_nonneg; assumption.
  - intros rc rc' rem cur Hrc E.
    destruct (fill_bar_fits _ (convertToMm u L) _ _ _ _ _ _ Hrc (Qle_refl _)
                (Forall_nil _) E) as [_ Hcur].
    split; [exact (Forall_lengths _ _ _ (fill_bar_lengths _ _ _ _ _ _ _ E) Hrc)|].
    simpl. apply Forall_map. eapply Forall_impl; [|exact Hcur].
    intros x Hx. rewrite convertToMm_convertFromMm. exact Hx.
  - constructor.
Qed.

(** ** Counting placed cuts *)

Lemma plan_count_app tc ps1 ps2 :
  plan_count tc (ps1 ++ ps2) = (plan_count tc ps1 + plan_count tc ps2)%nat.
Proof. induction ps1 as [|p ps1 IH]; simpl; [reflexivity|]. rewrite IH; lia. Qed.

Lemma plan_count_convert tc u ps :
  plan_count tc (map (Page.convert_plan u) ps) =
  plan_count (fun x => tc (convertFromMm u x)) ps.
Proof.
  induction ps as [|p ps IH]; simpl; [reflexivity|]. rewrite IH. f_equal.
  clear. induction (CutPlan.cuts p) as [|x l IH]; simpl; [reflexivity|].
  destruct (tc (convertFromMm u x)); simpl; rewrite IH; reflexivity.
Qed.

Section Counting.

Variables (k : Q) (tc : Q -> bool).

(** A working-list entry of length [e] yields cuts of length [e - k]. *)
Let te (e : Q) : bool := tc (e - k).

Lemma place_cut_count fuel c rem cc c' rem' cc' :
  Page.place_cut fuel k c rem cc = (c', rem', cc') ->
  (Z.of_nat (List.length (filter tc cc')) +
     (if te (Cut.length c') then Z.max 0 (Cut.quantity c') else 0))%Z =
  (Z.of_nat (List.length (filter tc cc)) +
     (if te (Cut.length c) then Z.max 0 (Cut.quantity c) else 0))%Z.
Proof.
  intros Hpc.
  apply (place_cut_inv k (fun c1 _ l1 => Cut.length c1 = Cut.length c /\
           (Z.of_nat (List.length (filter tc l1)) +
             (if te (Cut.length c1) then Z.max 0 (Cut.quantity c1) else 0))%Z =
           (Z.of_nat (List.length (filter tc cc)) +
             (if te (Cut.length c) then Z.max 0 (Cut.quantity c) else 0))%Z)) in Hpc;
    [tauto| |auto].
  intros c0 r0 l0 Hq _ [Hl Heq]. split; [exact Hl|]. rewrite <- Heq. simpl.
  rewrite filter_app, length_app. unfold te. simpl.
  destruct (tc (Cut.length c0 - k)); simpl; lia.
Qed.

Lemma fill_bar_count rc rem cc rc' rem' cc' :
  Page.fill_bar k rc rem cc = (rc', rem', cc') ->
  (Z.of_nat (List.length (filter tc cc')) + pending te rc')%Z =
  (Z.of_nat (List.length (filter tc cc)) + pending te rc)%Z.
Proof.
  revert rem cc rc'; induction rc as [|c rc IH]; intros rem cc rc' Hfb; simpl in Hfb.
  - inversion Hfb; subst; reflexivity.
  - destruct (Page.place_cut _ _ c rem cc) as [[c1 rem1] cc1] eqn:E1.
    destruct (Page.fill_bar k rc rem1 cc1) as [[rc2 rem2] cc2] eqn:E2.
    inversion Hfb; subst. simpl.
    pose proof (IH _ _ _ E2). pose proof (place_cut_count _ _ _ _ _ _ _ E1).
    lia.
Qed.

End Counting.

Lemma pending_perm te (l1 l2 : list Cut.t) :
  Permutation l1 l2 -> pending te l1 = pending te l2.
Proof. induction 1; simpl; lia. Qed.

Lemma pending_nonneg te rc : (0 <= pending te rc)%Z.
Proof. induction rc as [|c rc IH]; simpl; [lia|]. destruct (te (Cut.length c)); lia. Qed.

Lemma Qeq_bool_compat x y z : x == y -> Qeq_bool x z = Qeq_bool y z.
Proof.
  intros H. destruct (Qeq_bool y z) eqn:E.
  - apply Qeq_bool_iff. apply Qeq_bool_iff in E. rewrite H; exact E.
  - destruct (Qeq_bool x z) eqn:E'; [|reflexivity].
    apply Qeq_bool_iff in E'. apply Qeq_bool_neq in E. rewrite H in E'. contradiction.
Qed.

Lemma pending_requested u k len cs :
  Forall (fun c => (0 <= Cut.quantity c)%Z) cs ->
  pending (fun e => Qeq_bool (convertFromMm u (e - k)) len)
    (map (Page.convert_cut u k) cs) = requested len cs.
Proof.
  induction 1 as [|c cs Hc _ IH]; simpl; [reflexivity|]. rewrite IH.
  rewrite (Qeq_bool_compat _ (Cut.length c)).
  - destruct (Qeq_bool (Cut.length c) len); lia.
  - setoid_replace (convertToMm u (Cut.length c) + k - k)
      with (convertToMm u (Cut.length c)) by ring.
    apply convertFromMm_convertToMm.
Qed.

Lemma calculateOptimalCutPlan_count n L cs u kw ku len :
  Forall (fun c => (0 <= Cut.quantity c)%Z) cs ->
  (Z.of_nat (placed_count len (Page.calculateOptimalCutPlan n L cs u kw ku))
     <= requested len cs)%Z.
Proof.
  intros Hq.
  destruct (calculateOptimalCutPlan_cases n L cs u kw ku)
    as [idx [rc [ps [idx2 [ps2 [E1 [E2 ->]]]]]]].
  set (k := getKerfInMm kw ku) in *.
  set (tc := fun x => Qeq_bool (convertFromMm u x) len).
  set (te := fun e => tc (e - k)).
  set (rc0 := sort_desc (map (Page.convert_cut u k) cs)) in *.
  unfold placed_count. rewrite plan_count_convert. fold tc.
  apply (main_loop_inv _ _ _ (fun rc1 ps1 =>
           (Z.of_nat (plan_count tc ps1) + pending te rc1 = pending te rc0)%Z)) in E1.
  - apply (pad_loop_inv _ _ (fun ps1 => plan_count tc ps1 = plan_count tc ps)) in E2;
      [| intros ps1 H1; rewrite plan_count_app, H1; simpl; lia | reflexivity].
    rewrite E2.
    pose proof (pending_nonneg te rc).
    assert (pending te rc0 = requested len cs) as Hr.
    { unfold rc0. rewrite (pending_perm _ _ _ (sort_desc_perm _)).
      apply pending_requested; exact Hq. }
    lia.
  - intros rc1 ps1 rc2 rem cur H1 E.
    pose proof (fill_bar_count k tc _ _ _ _ _ _ E) as Hc. simpl in Hc.
    rewrite plan_count_app. simpl. fold te in Hc. lia.
  - reflexivity.
Qed.

(** ** The sort is a stable sort by non-increasing length *)

#[global] Instance cut_desc_trans : Transitive cut_desc.
Proof. intros a b c H1 H2; unfold cut_desc in *. apply Qle_trans with (Cut.length b); auto. Qed.

Lemma insert_desc_sorted x l : Sorted cut_desc l -> Sorted cut_desc (insert_desc x l).
Proof.
  induction l as [|y l IH]; intros H; simpl.
  - repeat constructor.
  - apply Sorted_inv in H as [Hl Hhd].
    destruct (cmp_le x y) eqn:C.
    + constructor; [constructor; assumption|]. constructor. apply Qle_bool_iff; exact C.
    + assert (Hyx : cut_desc y x).
      { unfold cut_desc, cmp_le in *. apply Qlt_le_weak, Qnot_le_lt.
        intros Hle; apply Qle_bool_iff in Hle; congruence. }
      constructor; [apply IH; exact Hl|].
      destruct l as [|z l']; simpl; [constructor; exact Hyx|].
      destruct (cmp_le x z); constructor; [exact Hyx|].
      inversion Hhd; assumption.
Qed.

Lemma sort_desc_sorted l : Sorted cut_desc (sort_desc l).
Proof. induction l; simpl; [constructor | apply insert_desc_sorted; assumption]. Qed.

Lemma insert_desc_stable q x l :
  filter (same_length q) (insert_desc x l) = filter (same_length q) (x :: l).
Proof.
  induction l as [|y l IH]; simpl; [reflexivity|].
  destruct (cmp_le x y) eqn:C; [reflexivity|].
  simpl. rewrite IH. simpl.
  destruct (same_length q x) eqn:Hx; [|reflexivity].
  destruct (same_length q y) eqn:Hy; [|reflexivity].
  exfalso. unfold same_length, cmp_le in *.
  apply Qeq_bool_iff in Hx, Hy. rewrite <- Hy in Hx.
  assert (Cut.length y <= Cut.length x) as Hle by (rewrite Hx; apply Qle_refl).
  apply Qle_bool_iff in Hle. congruence.
Qed.

Lemma sort_desc_stable q l :
  filter (same_length q) (sort_desc l) = filter (same_length q) l.
Proof.
  induction l as [|x l IH]; simpl; [reflexivity|].
  rewrite insert_desc_stable. simpl. rewrite IH. reflexivity.
Qed.

Lemma Sorted_head_max x r z :
  Sorted cut_desc (x :: r) -> In z (x :: r) -> Cut.length z <= Cut.length x.
Proof.
  intros Hs Hz. apply Sorted_StronglySorted in Hs; [|exact cut_desc_trans].
  apply StronglySorted_inv in Hs as [_ Hall].
  destruct Hz as [<- | Hz]; [apply Qle_refl|].
  rewrite Forall_forall in Hall. apply Hall; exact Hz.
Qed.

(** A stable sort by non-increasing length has one possible result. *)
Lemma stable_sort_unique l1 l2 :
  Permutation l1 l2 -> Sorted cut_desc l1 -> Sorted cut_desc l2 ->
  (forall q, filter (same_length q) l1 = filter (same_length q) l2) -> l1 = l2.
Proof.
  revert l2; induction l1 as [|x r1 IH]; intros l2 Hp Hs1 Hs2 Hf.
  - symmetry; apply Permutation_nil; exact Hp.
  - destruct l2 as [|y r2]; [apply Permutation_sym, Permutation_nil in Hp; discriminate|].
    assert (Cut.length y == Cut.length x) as Hyx.
    { apply Qle_antisym.
      - apply (Sorted_head_max x r1 y Hs1). apply (Permutation_in y (Permutation_sym Hp)).
        left; reflexivity.
      - apply (Sorted_head_max y r2 x Hs2). apply (Permutation_in x Hp). left; reflexivity. }
    pose proof (Hf (Cut.length x)) as Hfx. simpl in Hfx.
    unfold same_length in Hfx.
    rewrite (proj2 (Qeq_bool_iff _ _) (Qeq_refl _)) in Hfx.
    rewrite (proj2 (Qeq_bool_iff _ _) Hyx) in Hfx.
    injection Hfx as <- _.
    f_equal. apply IH.
    + apply Permutation_cons_inv in Hp; exact Hp.
    + apply Sorted_inv in Hs1; tauto.
    + apply Sorted_inv in Hs2; tauto.
    + intros q. specialize (Hf q). simpl in Hf.
      destruct (same_length q x); [injection Hf; auto | exact Hf].
Qed.

(** ** Zero kerf: the page allocator against the component allocator *)

Lemma Qle_bool_compat x x' y y' :
  x == x' -> y == y' -> Qle_bool x y = Qle_bool x' y'.
Proof.
  intros Hx Hy. destruct (Qle_bool x' y') eqn:E.
  - apply Qle_bool_iff. apply Qle_bool_iff in E. rewrite Hx, Hy; exact E.
  - destruct (Qle_bool x y) eqn:E'; [|reflexivity].
    apply Qle_bool_iff in E'. rewrite Hx, Hy in E'. apply Qle_bool_iff in E'. congruence.
Qed.

Lemma insert_desc_rel x x' l l' :
  cut_eq x x' -> Forall2 cut_eq l l' -> Forall2 cut_eq (insert_desc x l) (insert_desc x' l').
Proof.
  intros Hx Hl; induction Hl as [|y y' l l' Hy Hl IH]; simpl.
  - repeat constructor; apply Hx.
  - unfold cmp_le. rewrite (Qle_bool_compat _ (Cut.length y') _ (Cut.length x'));
      [| apply Hy | apply Hx].
    destruct (Qle_bool (Cut.length y') (Cut.length x')).
    + constructor; [exact Hx|]. constructor; assumption.
    + constructor; assumption.
Qed.

Lemma sort_desc_rel l l' : Forall2 cut_eq l l' -> Forall2 cut_eq (sort_desc l) (sort_desc l').
Proof. induction 1; simpl; [constructor | apply insert_desc_rel; assumption]. Qed.

Lemma has_demand_rel rc rc' : Forall2 cut_eq rc rc' -> Page.has_demand rc = Page.has_demand rc'.
Proof.
  induction 1 as [|c c' rc rc' [_ Hq] _ IH]; unfold Page.has_demand in *; simpl;
    [reflexivity|]. rewrite Hq, IH; reflexivity.
Qed.

Section ZeroKerf.

Variable k : Q.
Hypothesis Hk : k == 0.

Lemma place_cut_zero_kerf fuel c c' rem rem' cc cc' :
  cut_eq c c' -> rem == rem' -> Forall2 Qeq cc cc' ->
  let '(c1, r1, l1) := Page.place_cut fuel k c rem cc in
  let '(c1', r1', l1') := Component.place_cut fuel c' rem' cc' in
  cut_eq c1 c1' /\ r1 == r1' /\ Forall2 Qeq l1 l1'.
Proof.
  revert c c' rem rem' cc cc'; induction fuel as [|fuel IH];
    intros c c' rem rem' cc cc' [Hl Hq] Hr Hcc; simpl.
  - repeat split; assumption.
  - rewrite Hq, (Qle_bool_compat _ (Cut.length c') _ rem' Hl Hr).
    destruct ((0 <? Cut.quantity c')%Z && Qle_bool (Cut.length c') rem').
    + apply IH.
      * split; simpl; [exact Hl | reflexivity].
      * rewrite Hr, Hl; reflexivity.
      * apply Forall2_app; [exact Hcc|]. constructor; [|constructor].
        rewrite Hk, Hl; ring.
    + repeat split; assumption.
Qed.

Lemma fill_bar_zero_kerf rc rc' rem rem' cc cc' :
  Forall2 cut_eq rc rc' -> rem == rem' -> Forall2 Qeq cc cc' ->
  let '(rc1, r1, l1) := Page.fill_bar k rc rem cc in
  let '(rc1', r1', l1') := Component.fill_bar rc' rem' cc' in
  Forall2 cut_eq rc1 rc1' /\ r1 == r1' /\ Forall2 Qeq l1 l1'.
Proof.
  intros Hrc; revert rem rem' cc cc';
    induction Hrc as [|c c' rc rc' Hc Hrc IH]; intros rem rem' cc cc' Hr Hcc; simpl.
  - repeat split; auto.
  - pose proof (place_cut_zero_kerf (Z.to_nat (Cut.quantity c)) c c' rem rem' cc cc' Hc Hr Hcc)
      as Hp.
    destruct Hc as [Hl Hq]. rewrite <- Hq.
    destruct (Page.place_cut _ k c rem cc) as [[c1 r1] l1].
    destruct (Component.place_cut _ c' rem' cc') as [[c1' r1'] l1'].
    destruct Hp as [Hc1 [Hr1 Hl1]].
    pose proof (IH r1 r1' l1 l1' Hr1 Hl1) as Hf.
    destruct (Page.fill_bar k rc r1 l1) as [[rc2 r2] l2].
    destruct (Component.fill_bar rc' r1' l1') as [[rc2' r2'] l2'].
    destruct Hf as [Hrc2 [Hr2 Hl2]].
    repeat split; auto.
Qed.

Lemma main_loop_zero_kerf fuel n s s' idx rc rc' ps ps' :
  s == s' -> Forall2 cut_eq rc rc' -> Forall2 plan_eq ps ps' ->
  let '(i1, rc1, ps1) := Page.main_loop fuel n s k idx rc ps in
  let '(i1', rc1', ps1') := Component.main_loop fuel n s' idx rc' ps' in
  i1 = i1' /\ Forall2 cut_eq rc1 rc1' /\ Forall2 plan_eq ps1 ps1'.
Proof.
  intros Hs; revert idx rc rc' ps ps';
    induction fuel as [|fuel IH]; intros idx rc rc' ps ps' Hrc Hps; simpl.
  - auto.
  - rewrite (has_demand_rel _ _ Hrc).
    destruct ((idx <? n)%Z && Page.has_demand rc'); [|auto].
    pose proof (fill_bar_zero_kerf rc rc' s s' [] [] Hrc Hs (Forall2_nil _)) as Hf.
    destruct (Page.fill_bar k rc s []) as [[rc1 r1] l1].
    destruct (Component.fill_bar rc' s' []) as [[rc1' r1'] l1'].
    destruct Hf as [Hrc1 [Hr1 Hl1]].
    apply IH; [exact Hrc1|].
    apply Forall2_app; [exact Hps|]. constructor; [split; assumption | constructor].
Qed.

Lemma pad_loop_zero_kerf fuel n s s' idx ps ps' :
  s == s' -> Forall2 plan_eq ps ps' ->
  let '(i1, ps1) := Page.pad_loop fuel n s idx ps in
  let '(i1', ps1') := Component.pad_loop fuel n s' idx ps' in
  i1 = i1' /\ Forall2 plan_eq ps1 ps1'.
Proof.
  intros Hs; revert idx ps ps'; induction fuel as [|fuel IH]; intros idx ps ps' Hps; simpl.
  - auto.
  - destruct (idx <? n)%Z; [|auto].
    apply IH. apply Forall2_app; [exact Hps|].
    constructor; [split; [constructor | exact Hs] | constructor].
Qed.

End ZeroKerf.

Lemma convert_cuts_zero_kerf ku cs :
  Forall2 cut_eq (map (Page.convert_cut mm (getKerfInMm 0 ku)) cs) cs.
Proof.
  induction cs as [|c cs IH]; simpl; constructor; [|exact IH].
  split; [unfold Page.convert_cut, convertToMm, getKerfInMm; simpl; ring | reflexivity].
Qed.

Lemma component_copy_cuts cs :
  map (fun cut => Cut.mk (Cut.length cut) (Cut.quantity cut)) cs = cs.
Proof. induction cs as [|[] cs IH]; simpl; [reflexivity|]. rewrite IH; reflexivity. Qed.

Lemma convert_plan_mm p p' : plan_eq p p' -> plan_eq (Page.convert_plan mm p) p'.
Proof.
  intros [Hc Hw]. split; simpl.
  - induction Hc as [|x x' l l' Hx _ IH]; simpl; constructor; [|exact IH].
    unfold convertFromMm; simpl. rewrite Hx. field.
  - unfold convertFromMm; simpl. rewrite Hw. field.
Qed.

Lemma calculateOptimalCutPlan_zero_kerf n L cs ku :
  Forall2 plan_eq (Page.calculateOptimalCutPlan n L cs mm 0 ku)
    (Component.calculateOptimalCutPlan n L cs).
Proof.
  unfold Page.calculateOptimalCutPlan, Component.calculateOptimalCutPlan.
  rewrite component_copy_cuts.
  assert (Hk : getKerfInMm 0 ku == 0) by (unfold getKerfInMm; ring).
  assert (Hs : convertToMm mm L == L) by (unfold convertToMm; simpl; ring).
  pose proof (main_loop_zero_kerf _ Hk (Z.to_nat n) n _ _ 0%Z _ _ [] [] Hs
                (sort_desc_rel _ _ (convert_cuts_zero_kerf ku cs)) (Forall2_nil _)) as Hm.
  destruct (Page.main_loop _ _ _ _ _ _ _) as [[i1 rc1] ps1].
  destruct (Component.main_loop _ _ _ _ _ _) as [[i1' rc1'] ps1'].
  destruct Hm as [<- [_ Hps]].
  pose proof (pad_loop_zero_kerf (Z.to_nat n) n _ _ i1 _ _ Hs Hps) as Hp.
  destruct (Page.pad_loop _ _ _ _ _) as [i2 ps2].
  destruct (Component.pad_loop _ _ _ _ _) as [i2' ps2'].
  destruct Hp as [_ Hps2].
  induction Hps2; simpl; constructor; [apply convert_plan_mm|]; assumption.
Qed.

(** * Properties of the cut-plan computation *)

(** C1 (conservation): for every returned plan, the placed cut lengths, plus
    the kerf times the number of placed cuts, plus the waste, add up to the
    stock length, in canonical units (mm), exactly over exact arithmetic. *)
Theorem conservation n L cs u kw ku :
  Forall (fun p =>
    Qsum (map (convertToMm u) (CutPlan.cuts p))
    + getKerfInMm kw ku * inject_Z (Z.of_nat (List.length (CutPlan.cuts p)))
    + convertToMm u (CutPlan.waste p) == convertToMm u L)
    (Page.calculateOptimalCutPlan n L cs u kw ku).
Proof.
  apply calculateOptimalCutPlan_Forall with (I := fun _ => True); [exact Logic.I | |].
  - intros rc rc' rem cur _ E. split; [exact Logic.I|]. simpl.
    rewrite Qsum_map_convert, length_map, convertToMm_convertFromMm.
    eapply fill_bar_conservation; [|exact E]. simpl; ring.
  - simpl. rewrite convertToMm_convertFromMm. ring.
Qed.

(** C2 (bar count): for [numExtrusions >= 1] the computation returns exactly
    [numExtrusions] plans, and every plan without cuts has the whole stock
    length as waste. *)
Theorem bar_count n L cs u kw ku :
  (1 <= n)%Z ->
  Z.of_nat (List.length (Page.calculateOptimalCutPlan n L cs u kw ku)) = n /\
  Forall (fun p => CutPlan.cuts p = [] -> CutPlan.waste p == L)
    (Page.calculateOptimalCutPlan n L cs u kw ku).
Proof.
  intros Hn. split.
  - rewrite calculateOptimalCutPlan_length. lia.
  - apply calculateOptimalCutPlan_empty_waste.
Qed.

Lemma bar_count_witness :
  (1 <= 10)%Z /\
  (Z.of_nat (List.length (Page.calculateOptimalCutPlan 10 2000 [Cut.mk 1500 6] mm 3.2 mm)) = 10%Z /\
   Forall (fun p => CutPlan.cuts p = [] -> CutPlan.waste p == 2000)
     (Page.calculateOptimalCutPlan 10 2000 [Cut.mk 1500 6] mm 3.2 mm)).
Proof. split; [lia | apply bar_count; lia]. Defined.

(** C3 (example): stock 2000 mm, 10 bars, kerf 3.2 mm, six pieces of
    1500 mm: bars 1 to 6 each carry one 1500 cut with waste 496.8, bars 7 to
    10 are empty with waste 2000 (exact arithmetic, as everywhere here). *)
Theorem example_one_piece_per_bar :
  Forall2 plan_eq (Page.calculateOptimalCutPlan 10 2000 [Cut.mk 1500 6] mm 3.2 mm)
    (repeat (CutPlan.mk [1500] 496.8) 6 ++ repeat (CutPlan.mk [] 2000) 4).
Proof. vm_compute. repeat constructor. Qed.

(** C4 (impossible requests): a request whose effective length exceeds the
    stock length never appears among the placed cuts, and the sequence is
    still complete; for stock 1000, one bar, no kerf and one 1200 piece the
    result is exactly one empty plan with waste 1000. *)
Theorem oversized_request_never_placed :
  (forall n L cs u kw ku r,
     0 <= kw -> Forall (fun c => 0 < Cut.length c) cs -> In r cs ->
     convertToMm u L < convertToMm u (Cut.length r) + getKerfInMm kw ku ->
     List.length (Page.calculateOptimalCutPlan n L cs u kw ku) = Z.to_nat n /\
     Forall (fun p => Forall (fun c => ~ c == Cut.length r) (CutPlan.cuts p))
       (Page.calculateOptimalCutPlan n L cs u kw ku)) /\
  Forall2 plan_eq (Page.calculateOptimalCutPlan 1 1000 [Cut.mk 1200 1] mm 0 mm)
    [CutPlan.mk [] 1000].
Proof.
  split.
  - intros n L cs u kw ku r Hk Hcs _ Hbig. split; [apply calculateOptimalCutPlan_length|].
    assert (Hcs' : Forall (fun c => 0 <= Cut.length c) cs)
      by (eapply Forall_impl; [|exact Hcs]; intros c Hc; apply Qlt_le_weak; exact Hc).
    eapply Forall_impl; [|exact (calculateOptimalCutPlan_fits n L cs u kw ku Hk Hcs')].
    intros p Hp. eapply Forall_impl; [|exact Hp].
    intros c Hc Heq. change (c == Cut.length r) in Heq. cbv beta in Hc. rewrite Heq in Hc. apply (Qlt_not_le _ _ Hbig Hc).
  - vm_compute. repeat constructor.
Qed.

Lemma oversized_request_never_placed_witness :
  List.length (Page.calculateOptimalCutPlan 1 1000 [Cut.mk 1200 1] mm 0 mm) = 1%nat /\
  Forall (fun p => Forall (fun c => ~ c == 1200) (CutPlan.cuts p))
    (Page.calculateOptimalCutPlan 1 1000 [Cut.mk 1200 1] mm 0 mm).
Proof.
  apply (proj1 oversized_request_never_placed 1%Z 1000 [Cut.mk 1200 1] mm 0 mm (Cut.mk 1200 1)).
  - apply Qle_bool_iff; reflexivity.
  - repeat constructor.
  - left; reflexivity.
  - vm_compute; reflexivity.
Defined.

(** C5 (unit round trip): converting to millimetres and back gives the value
    back, for every unit and every rational value. *)
Theorem unit_roundtrip (u : Unit) (x : Q) : convertFromMm u (convertToMm u x) == x.
Proof. apply convertFromMm_convertToMm. Qed.

(** C6 (monotonic satisfaction): with non-negative quantities, the number of
    placed cuts of a length never exceeds the total quantity requested for
    that length. *)
Theorem placed_le_requested n L cs u kw ku len :
  Forall (fun c => (0 <= Cut.quantity c)%Z) cs ->
  (Z.of_nat (placed_count len (Page.calculateOptimalCutPlan n L cs u kw ku))
     <= requested len cs)%Z.
Proof. apply calculateOptimalCutPlan_count. Qed.

Lemma placed_le_requested_witness :
  Forall (fun c => (0 <= Cut.quantity c)%Z) [Cut.mk 1500 6; Cut.mk 300 2; Cut.mk 1500 1] /\
  (Z.of_nat (placed_count 1500
     (Page.calculateOptimalCutPlan 5 2000 [Cut.mk 1500 6; Cut.mk 300 2; Cut.mk 1500 1] mm 3.2 mm))
     <= requested 1500 [Cut.mk 1500 6; Cut.mk 300 2; Cut.mk 1500 1])%Z.
Proof.
  split; [repeat constructor; discriminate|].
  apply placed_le_requested. repeat constructor; discriminate.
Defined.

(** C7 (determinism): the working list is the stable sort of the converted
    requests by non-increasing effective length: a permutation of them,
    sorted, keeping input order among equal lengths, and the only list with
    these three properties; the plan sequence depends on the requests only
    through this working list, so identical inputs give identical outputs. *)
Theorem working_list_deterministic n L cs u kw ku :
  let w := map (Page.convert_cut u (getKerfInMm kw ku)) cs in
  Permutation (sort_desc w) w /\
  Sorted cut_desc (sort_desc w) /\
  (forall q, filter (same_length q) (sort_desc w) = filter (same_length q) w) /\
  (forall l, Permutation l w -> Sorted cut_desc l ->
     (forall q, filter (same_length q) l = filter (same_length q) w) -> l = sort_desc w) /\
  (forall cs', sort_desc (map (Page.convert_cut u (getKerfInMm kw ku)) cs') = sort_desc w ->
     Page.calculateOptimalCutPlan n L cs' u kw ku = Page.calculateOptimalCutPlan n L cs u kw ku).
Proof.
  intros w. split; [apply sort_desc_perm|]. split; [apply sort_desc_sorted|].
  split; [intros q; exact (sort_desc_stable q w)|]. split.
  - intros l Hp Hs Hf. apply stable_sort_unique.
    + rewrite Hp. symmetry; apply sort_desc_perm.
    + exact Hs.
    + apply sort_desc_sorted.
    + intros q. rewrite Hf. symmetry; apply sort_desc_stable.
  - intros cs' H. unfold Page.calculateOptimalCutPlan. cbv zeta. rewrite H. reflexivity.
Qed.

Lemma working_list_deterministic_witness :
  Page.calculateOptimalCutPlan 4 2000 [Cut.mk 300 2; Cut.mk 1500 1] mm 3.2 mm =
  Page.calculateOptimalCutPlan 4 2000 [Cut.mk 1500 1; Cut.mk 300 2] mm 3.2 mm.
Proof.
  apply (working_list_deterministic 4 2000 [Cut.mk 1500 1; Cut.mk 300 2] mm 3.2 mm).
  vm_compute; reflexivity.
Defined.

(** C8 (zero-kerf reduction): with kerf 0, every effective length equals the
    nominal length, and on millimetre inputs the page allocator returns the
    same plans as the kerf-free allocator of the component file. *)
Theorem zero_kerf_reduction n L cs ku :
  Forall2 cut_eq (map (Page.convert_cut mm (getKerfInMm 0 ku)) cs) cs /\
  Forall2 plan_eq (Page.calculateOptimalCutPlan n L cs mm 0 ku)
    (Component.calculateOptimalCutPlan n L cs).
Proof.
  split; [apply convert_cuts_zero_kerf | apply calculateOptimalCutPlan_zero_kerf].
Qed.

(** C9 (non-negative waste): with a non-negative stock length, every
    returned plan has a non-negative waste. *)
Theorem waste_nonneg n L cs u kw ku :
  0 <= L -> Forall (fun p => 0 <= CutPlan.waste p) (Page.calculateOptimalCutPlan n L cs u kw ku).
Proof.
  intros HL.
  assert (Hs : 0 <= convertToMm u L).
  { unfold convertToMm. apply Qmult_le_0_compat; [exact HL|].
    apply Qlt_le_weak, unitConversions_pos. }
  assert (Hdiv : forall w, 0 <= w -> 0 <= convertFromMm u w).
  { intros w Hw. unfold convertFromMm. apply Qle_shift_div_l; [apply unitConversions_pos|].
    rewrite Qmult_0_l; exact Hw. }
  apply calculateOptimalCutPlan_Forall with (I := fun _ => True); [exact Logic.I | |].
  - intros rc rc' rem cur _ E. split; [exact Logic.I|]. simpl.
    apply Hdiv. exact (fill_bar_nonneg _ _ _ _ _ _ _ Hs E).
  - simpl. apply Hdiv, Hs.
Qed.

Lemma waste_nonneg_witness :
  0 <= 2000 /\ Forall (fun p => 0 <= CutPlan.waste p)
    (Page.calculateOptimalCutPlan 10 2000 [Cut.mk 1500 6] mm 3.2 mm).
Proof.
  split; [apply Qle_bool_iff; reflexivity|].
  apply waste_nonneg. apply Qle_bool_iff; reflexivity.
Defined.

(** C10 (empty plans form a suffix): if the plan at index [i] has no cuts,
    no plan at a later index [j] has cuts. *)
Theorem empty_plans_suffix n L cs u kw ku i j p q :
  (i < j)%nat ->
  nth_error (Page.calculateOptimalCutPlan n L cs u kw ku) i = Some p ->
  nth_error (Page.calculateOptimalCutPlan n L cs u kw ku) j = Some q ->
  CutPlan.cuts p = [] -> CutPlan.cuts q = [].
Proof.
  intros Hij Hi Hj Hp.
  destruct (calculateOptimalCutPlan_suffix n L cs u kw ku) as [a [b [E [Ha Hb]]]].
  rewrite E in Hi, Hj.
  destruct (Nat.lt_ge_cases i (List.length a)) as [Hlt | Hge].
  - rewrite nth_error_app1 in Hi by exact Hlt.
    apply nth_error_In in Hi. rewrite Forall_forall in Ha. exfalso; exact (Ha p Hi Hp).
  - rewrite nth_error_app2 in Hj by lia.
    apply nth_error_In in Hj. rewrite Forall_forall in Hb. exact (Hb q Hj).
Qed.

Lemma empty_plans_suffix_witness :
  (6 < 8)%nat /\
  nth_error (Page.calculateOptimalCutPlan 10 2000 [Cut.mk 1500 6] mm 3.2 mm) 6 =
    Some (CutPlan.mk [] 2000) /\
  nth_error (Page.calculateOptimalCutPlan 10 2000 [Cut.mk 1500 6] mm 3.2 mm) 8 =
    Some (CutPlan.mk [] 2000) /\
  CutPlan.cuts (CutPlan.mk [] 2000) = [] /\ CutPlan.cuts (CutPlan.mk [] 2000) = [].
Proof.
  split; [lia|]. split; [vm_compute; reflexivity|]. split; [vm_compute; reflexivity|].
  split; [reflexivity|].
  apply (empty_plans_suffix 10 2000 [Cut.mk 1500 6] mm 3.2 mm 6 8
           (CutPlan.mk [] 2000) (CutPlan.mk [] 2000)).
  - lia.
  - vm_compute; reflexivity.
  - vm_compute; reflexivity.
  - reflexivity.
Defined.

(** * Further properties of the calculator's operations *)

(** ** Editing the cut rows *)

(** X: [updateCut] on an index in range keeps the number of rows, writes
    the field of that row and leaves every other row as it was. *)
Theorem updateCut_in_range cuts index field :
  (index < List.length cuts)%nat ->
  exists cuts', updateCut cuts index field = Some cuts' /\
    List.length cuts' = List.length cuts /\
    nth_error cuts' index = option_map (set_field field) (nth_error cuts index) /\
    (forall j, j <> index -> nth_error cuts' j = nth_error cuts j).
Proof.
  revert index; induction cuts as [|c cuts IH]; intros index Hi; simpl in Hi; [lia|].
  destruct index as [|index]; simpl.
  - exists (set_field field c :: cuts). repeat split.
    intros [|j] Hj; [contradiction | reflexivity].
  - destruct (IH index ltac:(lia)) as [cuts' [-> [Hlen [Hat Hother]]]]. simpl.
    exists (c :: cuts'). repeat split; simpl; [lia | exact Hat |].
    intros [|j] Hj; [reflexivity|]. apply Hother. lia.
Qed.

Lemma updateCut_in_range_witness :
  (1 < List.length [Cut.mk 1500 6; Cut.mk 300 2])%nat /\
  exists cuts', updateCut [Cut.mk 1500 6; Cut.mk 300 2] 1 (FieldQuantity 4) = Some cuts' /\
    List.length cuts' = List.length [Cut.mk 1500 6; Cut.mk 300 2] /\
    nth_error cuts' 1 =
      option_map (set_field (FieldQuantity 4)) (nth_error [Cut.mk 1500 6; Cut.mk 300 2] 1) /\
    (forall j, j <> 1%nat -> nth_error cuts' j = nth_error [Cut.mk 1500 6; Cut.mk 300 2] j).
Proof.
  split; [simpl; lia|]. apply updateCut_in_range. simpl; lia.
Defined.

(** X: [updateCut] on an index past the last row throws (the assignment to
    [undefined[field]] is a [TypeError]). *)
Theorem updateCut_out_of_range cuts index field :
  (List.length cuts <= index)%nat -> updateCut cuts index field = None.
Proof.
  revert index; induction cuts as [|c cuts IH]; intros index Hi; simpl; [reflexivity|].
  destruct index as [|index]; simpl in Hi; [lia|].
  rewrite IH by lia. reflexivity.
Qed.

Lemma updateCut_out_of_range_witness :
  (List.length [Cut.mk 1500 6] <= 1)%nat /\ updateCut [Cut.mk 1500 6] 1 (FieldLength 20) = None.
Proof. split; [simpl; lia | apply updateCut_out_of_range; simpl; lia]. Defined.

Lemma filteri_from_all {A} (f : nat -> A -> bool) i l :
  (forall j x, (i <= j)%nat -> f j x = true) -> filteri_from f i l = l.
Proof.
  revert i; induction l as [|x l IH]; intros i Hf; simpl; [reflexivity|].
  rewrite Hf by lia. rewrite IH; [reflexivity|]. intros j y Hj; apply Hf; lia.
Qed.

Lemma filteri_from_remove {A} (i index : nat) (l : list A) :
  filteri_from (fun j _ => negb (Nat.eqb j (i + index))) i l =
  firstn index l ++ skipn (S index) l.
Proof.
  revert i index; induction l as [|x l IH]; intros i index; simpl.
  - destruct index; reflexivity.
  - destruct index as [|index].
    + rewrite Nat.add_0_r, Nat.eqb_refl. simpl.
      apply filteri_from_all. intros j y Hj.
      destruct (Nat.eqb_spec j i); [lia | reflexivity].
    + replace (Nat.eqb i (i + S index)) with false
        by (symmetry; apply Nat.eqb_neq; lia).
      simpl. f_equal. replace (i + S index)%nat with (S i + index)%nat by lia.
      apply IH.
Qed.

(** X: [removeCut] drops exactly the row at [index] and keeps the others in
    order; an index past the last row removes nothing. *)
Theorem removeCut_spec cuts index :
  removeCut cuts index = firstn index cuts ++ skipn (S index) cuts.
Proof. apply (filteri_from_remove 0 index cuts). Qed.

(** X: removing the row [addCut] just appended gives the rows back. *)
Theorem removeCut_addCut cuts : removeCut (addCut cuts) (List.length cuts) = cuts.
Proof.
  rewrite removeCut_spec. unfold addCut.
  rewrite firstn_app, Nat.sub_diag, firstn_all. simpl firstn. rewrite app_nil_r.
  rewrite skipn_app.
  replace (S (List.length cuts) - List.length cuts)%nat with 1%nat by lia.
  rewrite (skipn_all2 cuts) by lia. simpl. apply app_nil_r.
Qed.

(** ** The summary of a plan sequence *)

Lemma fold_left_Zsum {A} (g : A -> Z) (l : list A) (a : Z) :
  fold_left (fun acc x => (acc + g x)%Z) l a = (a + fold_right (fun x acc => (g x + acc)%Z) 0%Z l)%Z.
Proof. revert a; induction l as [|x l IH]; intros a; simpl; [lia|]. rewrite IH; lia. Qed.

Lemma totalCutsMade_plan_count ps :
  totalCutsMade ps = Z.of_nat (plan_count (fun _ => true) ps).
Proof.
  unfold totalCutsMade. rewrite fold_left_Zsum.
  induction ps as [|p ps IH]; simpl; [reflexivity|].
  rewrite Nat2Z.inj_add, <- IH. rewrite filter_true. lia.
Qed.

Lemma calculateOptimalCutPlan_plan_count tc n L cs u kw ku :
  (Z.of_nat (plan_count tc (Page.calculateOptimalCutPlan n L cs u kw ku))
     <= pending (fun e => tc (convertFromMm u (e - getKerfInMm kw ku)))
          (map (Page.convert_cut u (getKerfInMm kw ku)) cs))%Z.
Proof.
  destruct (calculateOptimalCutPlan_cases n L cs u kw ku)
    as [idx [rc [ps [idx2 [ps2 [E1 [E2 ->]]]]]]].
  set (k := getKerfInMm kw ku) in *.
  set (tc' := fun x => tc (convertFromMm u x)).
  set (te := fun e => tc' (e - k)).
  set (rc0 := sort_desc (map (Page.convert_cut u k) cs)) in *.
  rewrite plan_count_convert. fold tc'.
  apply (main_loop_inv _ _ _ (fun rc1 ps1 =>
           (Z.of_nat (plan_count tc' ps1) + pending te rc1 = pending te rc0)%Z)) in E1.
  - apply (pad_loop_inv _ _ (fun ps1 => plan_count tc' ps1 = plan_count tc' ps)) in E2;
      [| intros ps1 H1; rewrite plan_count_app, H1; simpl; lia | reflexivity].
    rewrite E2. pose proof (pending_nonneg te rc).
    unfold rc0 in E1. rewrite (pending_perm _ _ _ (sort_desc_perm _)) in E1.
    unfold te, tc' in *. cbv beta in *. lia.
  - intros rc1 ps1 rc2 rem cur H1 E.
    pose proof (fill_bar_count k tc' _ _ _ _ _ _ E) as Hc. simpl in Hc.
    rewrite plan_count_app. simpl. fold te in Hc. lia.
  - reflexivity.
Qed.

Lemma calculateOptimalCutPlan_totalCutsMade n L cs u kw ku :
  Forall (fun c => (0 <= Cut.quantity c)%Z) cs ->
  (totalCutsMade (Page.calculateOptimalCutPlan n L cs u kw ku) <= totalCutsNeeded cs)%Z.
Proof.
  intros Hq. rewrite totalCutsMade_plan_count.
  eapply Z.le_trans; [apply (calculateOptimalCutPlan_plan_count (fun _ => true))|].
  unfold totalCutsNeeded. rewrite fold_left_Zsum. simpl.
  induction Hq as [|c cs Hc _ IH]; simpl; lia.
Qed.

(** X: with non-negative quantities, the summary's "Total cuts" made never
    exceeds the total needed. *)
Theorem totalCutsMade_le_totalCutsNeeded n L cs u kw ku :
  Forall (fun c => (0 <= Cut.quantity c)%Z) cs ->
  (totalCutsMade (Page.calculateOptimalCutPlan n L cs u kw ku) <= totalCutsNeeded cs)%Z.
Proof. apply calculateOptimalCutPlan_totalCutsMade. Qed.

Lemma totalCutsMade_le_totalCutsNeeded_witness :
  Forall (fun c => (0 <= Cut.quantity c)%Z) [Cut.mk 1500 6; Cut.mk 300 3] /\
  (totalCutsMade (Page.calculateOptimalCutPlan 3 2000 [Cut.mk 1500 6; Cut.mk 300 3] mm 3.2 mm)
     <= totalCutsNeeded [Cut.mk 1500 6; Cut.mk 300 3])%Z.
Proof.
  split; [repeat constructor; discriminate|].
  apply totalCutsMade_le_totalCutsNeeded. repeat constructor; discriminate.
Defined.

Lemma calculateOptimalCutPlan_conservation n L cs u kw ku :
  Forall (fun p =>
    Qsum (map (convertToMm u) (CutPlan.cuts p))
    + getKerfInMm kw ku * inject_Z (Z.of_nat (List.length (CutPlan.cuts p)))
    + convertToMm u (CutPlan.waste p) == convertToMm u L)
    (Page.calculateOptimalCutPlan n L cs u kw ku).
Proof.
  apply calculateOptimalCutPlan_Forall with (I := fun _ => True); [exact Logic.I | |].
  - intros rc rc' rem cur _ E. split; [exact Logic.I|]. simpl.
    rewrite Qsum_map_convert, length_map, convertToMm_convertFromMm.
    eapply fill_bar_conservation; [|exact E]. simpl; ring.
  - simpl. rewrite convertToMm_convertFromMm. ring.
Qed.

(** Summing the per-plan balance over the [reduce] accumulators. *)
Lemma sum_plans u k s ps aw ac :
  Forall (fun p =>
    Qsum (map (convertToMm u) (CutPlan.cuts p))
    + k * inject_Z (Z.of_nat (List.length (CutPlan.cuts p)))
    + convertToMm u (CutPlan.waste p) == s) ps ->
  convertToMm u (fold_left (fun sum p => sum + CutPlan.waste p) ps aw)
  + Qsum (map (convertToMm u) (concat (map CutPlan.cuts ps)))
  + k * inject_Z (fold_left (fun acc p => (acc + Z.of_nat (List.length (CutPlan.cuts p)))%Z) ps ac)
  == convertToMm u aw + k * inject_Z ac + inject_Z (Z.of_nat (List.length ps)) * s.
Proof.
  intros H; revert aw ac; induction H as [|p ps Hp _ IH]; intros aw ac; simpl.
  - ring.
  - rewrite map_app, Qsum_app.
    match goal with |- ?x + (?a + ?b) + ?c == _ => transitivity (a + (x + b + c)); [ring|] end.
    rewrite IH, <- Hp. unfold convertToMm.
    rewrite Zpos_P_of_succ_nat. unfold Z.succ. rewrite !inject_Z_plus. ring.
Qed.

(** X: for [numExtrusions >= 0], the summary's total waste, the placed cut
    lengths and the kerf of every placed cut add up, in millimetres, to
    [numExtrusions] stock lengths. *)
Theorem totalWaste_balance n L cs u kw ku :
  (0 <= n)%Z ->
  convertToMm u (totalWaste (Page.calculateOptimalCutPlan n L cs u kw ku))
  + Qsum (map (convertToMm u) (concat (map CutPlan.cuts (Page.calculateOptimalCutPlan n L cs u kw ku))))
  + getKerfInMm kw ku * inject_Z (totalCutsMade (Page.calculateOptimalCutPlan n L cs u kw ku))
  == inject_Z n * convertToMm u L.
Proof.
  intros Hn. unfold totalWaste, totalCutsMade.
  rewrite (sum_plans _ _ (convertToMm u L)) by apply calculateOptimalCutPlan_conservation.
  rewrite calculateOptimalCutPlan_length, Z2Nat.id by exact Hn.
  unfold convertToMm. ring.
Qed.

Lemma totalWaste_balance_witness :
  (0 <= 3)%Z /\
  convertToMm inch (totalWaste (Page.calculateOptimalCutPlan 3 80 [Cut.mk 30 4] inch 0.125 mm))
  + Qsum (map (convertToMm inch) (concat (map CutPlan.cuts
      (Page.calculateOptimalCutPlan 3 80 [Cut.mk 30 4] inch 0.125 mm))))
  + getKerfInMm 0.125 mm * inject_Z (totalCutsMade
      (Page.calculateOptimalCutPlan 3 80 [Cut.mk 30 4] inch 0.125 mm))
  == inject_Z 3 * convertToMm inch 80.
Proof. split; [lia|]. apply totalWaste_balance. lia. Defined.

Lemma filter_all {A} (f : A -> bool) l : Forall (fun x => f x = true) l -> filter f l = l.
Proof. induction 1 as [|x l Hx _ IH]; simpl; [reflexivity|]. rewrite Hx, IH; reflexivity. Qed.

Lemma filter_none {A} (f : A -> bool) l : Forall (fun x => f x = false) l -> filter f l = [].
Proof. induction 1 as [|x l Hx _ IH]; simpl; [reflexivity|]. rewrite Hx; exact IH. Qed.

Lemma calculateOptimalCutPlan_used_prefix n L cs u kw ku i p :
  nth_error (Page.calculateOptimalCutPlan n L cs u kw ku) i = Some p ->
  (CutPlan.cuts p <> [] <-> (i < extrusionsUsed (Page.calculateOptimalCutPlan n L cs u kw ku))%nat).
Proof.
  intros Hi.
  destruct (calculateOptimalCutPlan_suffix n L cs u kw ku) as [a [b [E [Ha Hb]]]].
  rewrite E in Hi |- *.
  assert (Hu : extrusionsUsed (a ++ b) = List.length a).
  { unfold extrusionsUsed. rewrite filter_app, filter_all, filter_none, app_nil_r; [reflexivity| |].
    - eapply Forall_impl; [|exact Hb]. intros q Hq; simpl. rewrite Hq; reflexivity.
    - eapply Forall_impl; [|exact Ha]. intros q Hq; cbv beta in Hq; simpl.
      destruct (CutPlan.cuts q); [contradiction|reflexivity]. }
  rewrite Hu. destruct (Nat.lt_ge_cases i (List.length a)) as [Hlt | Hge].
  - rewrite nth_error_app1 in Hi by exact Hlt.
    apply nth_error_In in Hi. rewrite Forall_forall in Ha. split; [intros; exact Hlt | intros; exact (Ha p Hi)].
  - rewrite nth_error_app2 in Hi by exact Hge.
    apply nth_error_In in Hi. rewrite Forall_forall in Hb.
    split; [intros Hne; exfalso; exact (Hne (Hb p Hi)) | lia].
Qed.

(** X: the summary's "Extrusions used" counts the leading plans with cuts:
    the plan at index [i] has cuts exactly when [i] is below that count. *)
Theorem extrusionsUsed_prefix n L cs u kw ku i p :
  nth_error (Page.calculateOptimalCutPlan n L cs u kw ku) i = Some p ->
  (CutPlan.cuts p <> [] <-> (i < extrusionsUsed (Page.calculateOptimalCutPlan n L cs u kw ku))%nat).
Proof. apply calculateOptimalCutPlan_used_prefix. Qed.

Lemma extrusionsUsed_prefix_witness :
  nth_error (Page.calculateOptimalCutPlan 3 2000 [Cut.mk 1500 2] mm 3.2 mm) 2 =
    Some (CutPlan.mk [] 2000) /\
  (CutPlan.cuts (CutPlan.mk [] 2000) <> [] <->
     (2 < extrusionsUsed (Page.calculateOptimalCutPlan 3 2000 [Cut.mk 1500 2] mm 3.2 mm))%nat).
Proof.
  split; [vm_compute; reflexivity|].
  apply extrusionsUsed_prefix. vm_compute; reflexivity.
Defined.

(** ** The row warning and the placed cuts *)

(** X: a row flagged "Exceeds extrusion length" in the input table is never
    placed, for a non-negative kerf and non-negative cut lengths. *)
Theorem exceeds_flag_never_placed n L cs u kw ku r :
  0 <= kw -> Forall (fun c => 0 <= Cut.length c) cs ->
  exceedsExtrusionLength u L r = true ->
  Forall (fun p => Forall (fun c => ~ c == Cut.length r) (CutPlan.cuts p))
    (Page.calculateOptimalCutPlan n L cs u kw ku).
Proof.
  intros Hk Hcs Hflag.
  assert (Hbig : convertToMm u L < convertToMm u (Cut.length r)).
  { unfold exceedsExtrusionLength in Hflag. apply Qnot_le_lt. intros Hle.
    apply Qle_bool_iff in Hle. rewrite Hle in Hflag. discriminate. }
  assert (Hkm : 0 <= getKerfInMm kw ku).
  { unfold getKerfInMm. apply Qmult_le_0_compat; [exact Hk|]. apply Qlt_le_weak, unitConversions_pos. }
  eapply Forall_impl; [|exact (calculateOptimalCutPlan_fits n L cs u kw ku Hk Hcs)].
  intros p Hp. eapply Forall_impl; [|exact Hp].
  intros c Hc Heq. change (c == Cut.length r) in Heq. cbv beta in Hc. rewrite Heq in Hc.
  apply (Qlt_not_le _ _ Hbig). apply Qle_trans with (convertToMm u (Cut.length r) + getKerfInMm kw ku); [|exact Hc].
  apply Qle_minus_iff. setoid_replace (convertToMm u (Cut.length r) + getKerfInMm kw ku + - convertToMm u (Cut.length r)) with (getKerfInMm kw ku) by ring.
  exact Hkm.
Qed.

Lemma exceeds_flag_never_placed_witness :
  0 <= 3.2 /\ Forall (fun c => 0 <= Cut.length c) [Cut.mk 2500 1; Cut.mk 500 3] /\
  exceedsExtrusionLength mm 2000 (Cut.mk 2500 1) = true /\
  Forall (fun p => Forall (fun c => ~ c == Cut.length (Cut.mk 2500 1)) (CutPlan.cuts p))
    (Page.calculateOptimalCutPlan 4 2000 [Cut.mk 2500 1; Cut.mk 500 3] mm 3.2 mm).
Proof.
  assert (H1 : 0 <= 3.2) by (apply Qle_bool_iff; reflexivity).
  assert (H2 : Forall (fun c => 0 <= Cut.length c) [Cut.mk 2500 1; Cut.mk 500 3])
    by (repeat constructor; apply Qle_bool_iff; reflexivity).
  assert (H3 : exceedsExtrusionLength mm 2000 (Cut.mk 2500 1) = true) by reflexivity.
  split; [exact H1|]. split; [exact H2|]. split; [exact H3|].
  exact (exceeds_flag_never_placed 4 2000 _ mm 3.2 mm _ H1 H2 H3).
Defined.

Lemma calculateOptimalCutPlan_requested n L cs u kw ku :
  Forall (fun p => Forall (fun c => exists r, In r cs /\ c == Cut.length r) (CutPlan.cuts p))
    (Page.calculateOptimalCutPlan n L cs u kw ku).
Proof.
  set (k := getKerfInMm kw ku).
  set (Pc := fun l => exists r, In r cs /\ l == convertToMm u (Cut.length r) + k).
  apply calculateOptimalCutPlan_Forall with (I := Forall (fun c => Pc (Cut.length c))).
  - rewrite (sort_desc_perm _). apply Forall_map, Forall_forall.
    intros r Hr. exists r. split; [exact Hr | reflexivity].
  - intros rc rc' rem cur Hrc E.
    split; [exact (Forall_lengths _ _ _ (fill_bar_lengths _ _ _ _ _ _ _ E) Hrc)|].
    simpl. apply Forall_map.
    apply (fill_bar_inv k Pc (fun _ l => Forall (fun x =>
             exists r, In r cs /\ convertFromMm u x == Cut.length r) l)) in E;
      [exact E | | exact Hrc | constructor].
    intros c r0 l [r [Hin Heq]] _ _ Hl. apply Forall_app; split; [exact Hl|].
    constructor; [|constructor]. exists r. split; [exact Hin|].
    rewrite Heq. setoid_replace (convertToMm u (Cut.length r) + k - k)
      with (convertToMm u (Cut.length r)) by ring.
    apply convertFromMm_convertToMm.
  - constructor.
Qed.


(** X: every placed cut, plus the kerf, fits in the stock length (in
    millimetres), for a non-negative kerf and non-negative cut lengths. *)
Theorem placed_cut_fits n L cs u kw ku :
  0 <= kw -> Forall (fun c => 0 <= Cut.length c) cs ->
  Forall (fun p => Forall (fun c => convertToMm u c + getKerfInMm kw ku <= convertToMm u L)
                     (CutPlan.cuts p))
    (Page.calculateOptimalCutPlan n L cs u kw ku).
Proof. apply calculateOptimalCutPlan_fits. Qed.

Lemma placed_cut_fits_witness :
  0 <= 0.125 /\ Forall (fun c => 0 <= Cut.length c) [Cut.mk 30 4; Cut.mk 12 2] /\
  Forall (fun p => Forall (fun c => convertToMm inch c + getKerfInMm 0.125 inch <= convertToMm inch 80)
                     (CutPlan.cuts p))
    (Page.calculateOptimalCutPlan 3 80 [Cut.mk 30 4; Cut.mk 12 2] inch 0.125 inch).
Proof.
  assert (H1 : 0 <= 0.125) by (apply Qle_bool_iff; reflexivity).
  assert (H2 : Forall (fun c => 0 <= Cut.length c) [Cut.mk 30 4; Cut.mk 12 2])
    by (repeat constructor; apply Qle_bool_iff; reflexivity).
  split; [exact H1|]. split; [exact H2|]. exact (placed_cut_fits 3 80 _ inch 0.125 inch H1 H2).
Defined.

(** ** The kerf-free allocator of the component file *)

Lemma Forall2_transfer {A B} (R : A -> B -> Prop) (P : A -> Prop) (P' : B -> Prop) l1 l2 :
  Forall2 R l1 l2 -> (forall a b, R a b -> P a -> P' b) -> Forall P l1 -> Forall P' l2.
Proof.
  intros H HR; induction H as [|a b l1 l2 Hab _ IH]; intros HP; [constructor|].
  inversion HP; subst. constructor; [eapply HR; eauto | auto].
Qed.

Lemma Qsum_Forall2 l l' : Forall2 Qeq l l' -> Qsum l == Qsum l'.
Proof. induction 1 as [|x y l l' Hxy _ IH]; simpl; [reflexivity|]. rewrite Hxy, IH; reflexivity. Qed.

Lemma Qsum_convert_mm l : Qsum (map (convertToMm mm) l) == Qsum l.
Proof.
  induction l as [|x l IH]; simpl; [reflexivity|]. rewrite IH. unfold convertToMm; simpl; ring.
Qed.

Lemma convertToMm_mm x : convertToMm mm x == x.
Proof. unfold convertToMm; simpl; ring. Qed.

(** A property of every page plan in millimetres with kerf 0 that respects
    equality of numbers holds for every plan of the component file. *)
Lemma component_Forall (P : CutPlan.t -> Prop) n L cs :
  (forall p q, plan_eq p q -> P p -> P q) ->
  Forall P (Page.calculateOptimalCutPlan n L cs mm 0 mm) ->
  Forall P (Component.calculateOptimalCutPlan n L cs).
Proof. intros HP. apply Forall2_transfer with (R := plan_eq); [apply calculateOptimalCutPlan_zero_kerf | exact HP]. Qed.

Lemma calculateOptimalCutPlan_waste_nonneg n L cs u kw ku :
  0 <= L -> Forall (fun p => 0 <= CutPlan.waste p) (Page.calculateOptimalCutPlan n L cs u kw ku).
Proof.
  intros HL.
  assert (Hs : 0 <= convertToMm u L).
  { unfold convertToMm. apply Qmult_le_0_compat; [exact HL|].
    apply Qlt_le_weak, unitConversions_pos. }
  assert (Hdiv : forall w, 0 <= w -> 0 <= convertFromMm u w).
  { intros w Hw. unfold convertFromMm. apply Qle_shift_div_l; [apply unitConversions_pos|].
    rewrite Qmult_0_l; exact Hw. }
  apply calculateOptimalCutPlan_Forall with (I := fun _ => True); [exact Logic.I | |].
  - intros rc rc' rem cur _ E. split; [exact Logic.I|]. simpl.
    apply Hdiv. exact (fill_bar_nonneg _ _ _ _ _ _ _ Hs E).
  - simpl. apply Hdiv, Hs.
Qed.

(** X: in the component file, every plan's cut lengths and waste add up to
    the stock length. *)
Theorem component_conservation n L cs :
  Forall (fun p => Qsum (CutPlan.cuts p) + CutPlan.waste p == L)
    (Component.calculateOptimalCutPlan n L cs).
Proof.
  apply component_Forall.
  - intros p q [Hc Hw] H. rewrite <- (Qsum_Forall2 _ _ Hc), <- Hw. exact H.
  - eapply Forall_impl; [|apply (calculateOptimalCutPlan_conservation n L cs mm 0 mm)].
    intros p Hp. cbv beta in Hp. rewrite Qsum_convert_mm, !convertToMm_mm in Hp.
    rewrite <- Hp. unfold getKerfInMm. ring.
Qed.

(** X: the component file returns [numExtrusions] plans (none for a
    non-positive count). *)
Theorem component_bar_count n L cs :
  List.length (Component.calculateOptimalCutPlan n L cs) = Z.to_nat n.
Proof.
  rewrite <- (Forall2_length (calculateOptimalCutPlan_zero_kerf n L cs mm)).
  apply calculateOptimalCutPlan_length.
Qed.

(** X: in the component file, a non-negative stock length gives non-negative
    waste on every plan. *)
Theorem component_waste_nonneg n L cs :
  0 <= L -> Forall (fun p => 0 <= CutPlan.waste p) (Component.calculateOptimalCutPlan n L cs).
Proof.
  intros HL. apply component_Forall.
  - intros p q [_ Hw] H. rewrite <- Hw. exact H.
  - apply calculateOptimalCutPlan_waste_nonneg, HL.
Qed.

Lemma component_waste_nonneg_witness :
  0 <= 2000 /\ Forall (fun p => 0 <= CutPlan.waste p)
    (Component.calculateOptimalCutPlan 4 2000 [Cut.mk 1500 3; Cut.mk 450 2]).
Proof.
  assert (H : 0 <= 2000) by (apply Qle_bool_iff; reflexivity).
  split; [exact H | exact (component_waste_nonneg 4 2000 _ H)].
Defined.

(** X: in the component file, every placed cut fits in the stock length,
    for non-negative cut lengths. *)
Theorem component_cut_fits n L cs :
  Forall (fun c => 0 <= Cut.length c) cs ->
  Forall (fun p => Forall (fun c => c <= L) (CutPlan.cuts p))
    (Component.calculateOptimalCutPlan n L cs).
Proof.
  intros Hcs. apply component_Forall.
  - intros p q [Hc _] H. eapply Forall2_transfer; [exact Hc| |exact H].
    intros a b Hab Ha. rewrite <- Hab. exact Ha.
  - eapply Forall_impl;
      [|exact (calculateOptimalCutPlan_fits n L cs mm 0 mm (Qle_refl 0) Hcs)].
    intros p Hp. eapply Forall_impl; [|exact Hp].
    intros c Hc. cbv beta in Hc. rewrite !convertToMm_mm in Hc. unfold getKerfInMm in Hc.
    setoid_replace (c + 0 * unitConversions mm) with c in Hc by ring. exact Hc.
Qed.

Lemma component_cut_fits_witness :
  Forall (fun c => 0 <= Cut.length c) [Cut.mk 1500 3; Cut.mk 450 2] /\
  Forall (fun p => Forall (fun c => c <= 2000) (CutPlan.cuts p))
    (Component.calculateOptimalCutPlan 4 2000 [Cut.mk 1500 3; Cut.mk 450 2]).
Proof.
  assert (H : Forall (fun c => 0 <= Cut.length c) [Cut.mk 1500 3; Cut.mk 450 2])
    by (repeat constructor; apply Qle_bool_iff; reflexivity).
  split; [exact H | exact (component_cut_fits 4 2000 _ H)].
Defined.

(** X: in the component file every placed cut has the length of one of the
    requested rows. *)
Theorem component_cut_is_requested n L cs :
  Forall (fun p => Forall (fun c => exists r, In r cs /\ c == Cut.length r) (CutPlan.cuts p))
    (Component.calculateOptimalCutPlan n L cs).
Proof.
  apply component_Forall; [|apply calculateOptimalCutPlan_requested].
  intros p q [Hc _] H. eapply Forall2_transfer; [exact Hc| |exact H].
  intros a b Hab [r [Hr Ha]]. exists r. split; [exact Hr|]. rewrite <- Hab. exact Ha.
Qed.

Lemma totalCutsMade_plan_eq ps qs : Forall2 plan_eq ps qs -> totalCutsMade ps = totalCutsMade qs.
Proof.
  intros H. rewrite !totalCutsMade_plan_count. f_equal.
  induction H as [|p q ps qs [Hc _] _ IH]; simpl; [reflexivity|].
  rewrite !filter_true, (Forall2_length Hc), IH. reflexivity.
Qed.

(** X: in the component file, with non-negative quantities, the total cuts
    made never exceed the total cuts needed. *)
Theorem component_totalCutsMade_le n L cs :
  Forall (fun c => (0 <= Cut.quantity c)%Z) cs ->
  (totalCutsMade (Component.calculateOptimalCutPlan n L cs) <= totalCutsNeeded cs)%Z.
Proof.
  intros Hq. rewrite <- (totalCutsMade_plan_eq _ _ (calculateOptimalCutPlan_zero_kerf n L cs mm)).
  apply calculateOptimalCutPlan_totalCutsMade, Hq.
Qed.

Lemma component_totalCutsMade_le_witness :
  Forall (fun c => (0 <= Cut.quantity c)%Z) [Cut.mk 1500 3; Cut.mk 450 2] /\
  (totalCutsMade (Component.calculateOptimalCutPlan 2 2000 [Cut.mk 1500 3; Cut.mk 450 2])
     <= totalCutsNeeded [Cut.mk 1500 3; Cut.mk 450 2])%Z.
Proof.
  assert (H : Forall (fun c => (0 <= Cut.quantity c)%Z) [Cut.mk 1500 3; Cut.mk 450 2])
    by (repeat constructor; discriminate).
  split; [exact H | exact (component_totalCutsMade_le 2 2000 _ H)].
Defined.

Lemma nth_error_Forall2 {A B} (R : A -> B -> Prop) l1 l2 i b :
  Forall2 R l1 l2 -> nth_error l2 i = Some b -> exists a, nth_error l1 i = Some a /\ R a b.
Proof.
  intros H; revert i; induction H as [|a0 b0 l1 l2 Hab _ IH]; intros i Hi.
  - destruct i; discriminate.
  - destruct i as [|i]; simpl in Hi |- *.
    + injection Hi as <-. exists a0; auto.
    + apply IH, Hi.
Qed.

Lemma extrusionsUsed_plan_eq ps qs : Forall2 plan_eq ps qs -> extrusionsUsed ps = extrusionsUsed qs.
Proof.
  unfold extrusionsUsed. induction 1 as [|p q ps qs [Hc _] _ IH]; simpl; [reflexivity|].
  rewrite (Forall2_length Hc). destruct (Nat.ltb 0 _); simpl; rewrite IH; reflexivity.
Qed.

(** X: in the component file, too, "Extrusions used" counts the leading
    plans with cuts: the plan at index [i] has cuts exactly when [i] is below
    that count. *)
Theorem component_extrusionsUsed_prefix n L cs i q :
  nth_error (Component.calculateOptimalCutPlan n L cs) i = Some q ->
  (CutPlan.cuts q <> [] <-> (i < extrusionsUsed (Component.calculateOptimalCutPlan n L cs))%nat).
Proof.
  intros Hi. pose proof (calculateOptimalCutPlan_zero_kerf n L cs mm) as H.
  destruct (nth_error_Forall2 _ _ _ _ _ H Hi) as [p [Hp [Hc _]]].
  rewrite <- (extrusionsUsed_plan_eq _ _ H), <- (calculateOptimalCutPlan_used_prefix _ _ _ _ _ _ _ _ Hp).
  split; intros Hne Hnil; apply Hne; [rewrite Hnil in Hc | rewrite Hnil in Hc];
    inversion Hc; reflexivity.
Qed.

Lemma component_extrusionsUsed_prefix_witness :
  nth_error (Component.calculateOptimalCutPlan 3 2000 [Cut.mk 1500 2]) 1 =
    Some (CutPlan.mk [1500] 500) /\
  (CutPlan.cuts (CutPlan.mk [1500] 500) <> [] <->
     (1 < extrusionsUsed (Component.calculateOptimalCutPlan 3 2000 [Cut.mk 1500 2]))%nat).
Proof.
  split; [vm_compute; reflexivity|].
  apply component_extrusionsUsed_prefix. vm_compute; reflexivity.
Defined.

(** ** Changing the unit *)

#[global] Instance toFixed2_Proper : Proper (Qeq ==> Qeq) toFixed2.
Proof.
  intros x y H. unfold toFixed2.
  rewrite (Qle_bool_compat _ _ (Qabs x) (Qabs y) (Qeq_refl _) (Qabs_wd _ _ H)),
    (Qle_bool_compat 0 0 x y (Qeq_refl _) H).
  destruct (Qle_bool _ (Qabs y)); [exact H|].
  destruct (Qle_bool 0 y); rewrite H; reflexivity.
Qed.

Lemma Qfloor_int_half (j : Z) : Qfloor (inject_Z j + (1 # 2)) = j.
Proof.
  unfold Qfloor, Qplus, inject_Z; simpl.
  rewrite Z.div_add_l by lia. apply Z.add_0_r.
Qed.

(** Rounding to two decimals leaves a multiple of [1/100] unchanged. *)
Lemma toFixed2_cents (j : Z) : toFixed2 (inject_Z j / 100) == inject_Z j / 100.
Proof.
  unfold toFixed2.
  destruct (Qle_bool _ (Qabs _)); [reflexivity|].
  destruct (Qle_bool 0 _).
  - setoid_replace (inject_Z j / 100 * 100 + (1 # 2)) with (inject_Z j + (1 # 2)) by field.
    rewrite Qfloor_int_half. reflexivity.
  - setoid_replace (- (inject_Z j / 100) * 100 + (1 # 2)) with (inject_Z (- j) + (1 # 2))
      by (rewrite inject_Z_opp; field).
    rewrite Qfloor_int_half, inject_Z_opp. field.
Qed.

Lemma toFixed2_shape x : toFixed2 x = x \/ exists j, toFixed2 x == inject_Z j / 100.
Proof.
  unfold toFixed2.
  destruct (Qle_bool _ (Qabs x)); [left; reflexivity|right].
  destruct (Qle_bool 0 x).
  - eexists; reflexivity.
  - exists (- Qfloor (- x * 100 + (1 # 2)))%Z. rewrite inject_Z_opp. field.
Qed.

Lemma toFixed2_idem x : toFixed2 (toFixed2 x) == toFixed2 x.
Proof.
  destruct (toFixed2_shape x) as [E | [j Hj]]; [rewrite E, E; reflexivity|].
  rewrite Hj. apply toFixed2_cents.
Qed.

Lemma Qfloor_bounds q : inject_Z (Qfloor q) <= q /\ q < inject_Z (Qfloor q) + 1.
Proof.
  split; [apply Qfloor_le|]. pose proof (Qlt_floor q) as H.
  rewrite inject_Z_plus in H. exact H.
Qed.

Lemma toFixed2_error x : Qabs (toFixed2 x - x) <= 1 # 200.
Proof.
  unfold toFixed2. apply Qabs_Qle_condition.
  destruct (Qle_bool _ (Qabs x)); [split; lra|].
  unfold Qdiv; change (/ 100) with (1 # 100).
  destruct (Qle_bool 0 x).
  - destruct (Qfloor_bounds (x * 100 + (1 # 2))). split; lra.
  - destruct (Qfloor_bounds (- x * 100 + (1 # 2))). split; lra.
Qed.


(** X: a second unit change leaves an already converted value as it is:
    repeated unit switches do not make the values drift. *)
Theorem unitChangeLength_twice u u' x :
  unitChangeLength u' (unitChangeLength u x) == unitChangeLength u x.
Proof.
  assert (E : forall v y, unitChangeLength v y == toFixed2 y).
  { intros v y. unfold unitChangeLength. apply toFixed2_Proper.
    unfold Qdiv. rewrite <- Qmult_assoc, Qmult_inv_r by apply unitConversions_nonzero.
    apply Qmult_1_r. }
  rewrite !E. apply toFixed2_idem.
Qed.

(** X: a unit change moves a value by at most half a hundredth. *)
Theorem unitChangeLength_error u x : Qabs (unitChangeLength u x - x) <= 1 # 200.
Proof.
  assert (E : unitChangeLength u x == toFixed2 x).
  { unfold unitChangeLength. apply toFixed2_Proper.
    unfold Qdiv. rewrite <- Qmult_assoc, Qmult_inv_r by apply unitConversions_nonzero.
    apply Qmult_1_r. }
  rewrite E. apply toFixed2_error.
Qed.

(** ** The per-row summary *)

Lemma fold_left_natsum {A} (g : A -> nat) (l : list A) (a : nat) :
  fold_left (fun acc x => (acc + g x)%nat) l a = (a + fold_right (fun x acc => (g x + acc)%nat) 0%nat l)%nat.
Proof. revert a; induction l as [|x l IH]; intros a; simpl; [lia|]. rewrite IH; lia. Qed.

Lemma rowPlacedCount_placed_count ps r : rowPlacedCount ps r = placed_count (Cut.length r) ps.
Proof. unfold rowPlacedCount, placed_count, plan_count. rewrite fold_left_natsum. reflexivity. Qed.

(** X: with non-negative quantities, the "cuts: x of q needed" count shown
    for a row never exceeds the total quantity of the rows with that
    length (rows of equal length share one count). *)
Theorem rowPlacedCount_le_requested n L cs u kw ku r :
  Forall (fun c => (0 <= Cut.quantity c)%Z) cs ->
  (Z.of_nat (rowPlacedCount (Page.calculateOptimalCutPlan n L cs u kw ku) r)
     <= requested (Cut.length r) cs)%Z.
Proof. intros Hq. rewrite rowPlacedCount_placed_count. apply calculateOptimalCutPlan_count, Hq. Qed.

Lemma rowPlacedCount_le_requested_witness :
  Forall (fun c => (0 <= Cut.quantity c)%Z) [Cut.mk 900 2; Cut.mk 400 3] /\
  (Z.of_nat (rowPlacedCount (Page.calculateOptimalCutPlan 2 2000 [Cut.mk 900 2; Cut.mk 400 3] mm 3.2 mm)
     (Cut.mk 400 3)) <= requested 400 [Cut.mk 900 2; Cut.mk 400 3])%Z.
Proof.
  assert (H : Forall (fun c => (0 <= Cut.quantity c)%Z) [Cut.mk 900 2; Cut.mk 400 3])
    by (repeat constructor; discriminate).
  split; [exact H | exact (rowPlacedCount_le_requested 2 2000 _ mm 3.2 mm (Cut.mk 400 3) H)].
Defined.

Lemma filter_Qeq_length len l l' :
  Forall2 Qeq l l' ->
  List.length (filter (fun c => Qeq_bool c len) l) = List.length (filter (fun c => Qeq_bool c len) l').
Proof.
  induction 1 as [|x y l l' Hxy _ IH]; simpl; [reflexivity|].
  rewrite (Qeq_bool_compat _ _ len Hxy). destruct (Qeq_bool y len); simpl; rewrite IH; reflexivity.
Qed.

Lemma placed_count_plan_eq len ps qs :
  Forall2 plan_eq ps qs -> placed_count len ps = placed_count len qs.
Proof.
  unfold placed_count, plan_count.
  induction 1 as [|p q ps qs [Hc _] _ IH]; simpl; [reflexivity|].
  rewrite (filter_Qeq_length _ _ _ Hc), IH. reflexivity.
Qed.

(** X: the same bound for the per-row summary of the component file. *)
Theorem component_rowPlacedCount_le_requested n L cs r :
  Forall (fun c => (0 <= Cut.quantity c)%Z) cs ->
  (Z.of_nat (rowPlacedCount (Component.calculateOptimalCutPlan n L cs) r)
     <= requested (Cut.length r) cs)%Z.
Proof.
  intros Hq. rewrite rowPlacedCount_placed_count,
    <- (placed_count_plan_eq _ _ _ (calculateOptimalCutPlan_zero_kerf n L cs mm)).
  apply calculateOptimalCutPlan_count, Hq.
Qed.

Lemma component_rowPlacedCount_le_requested_witness :
  Forall (fun c => (0 <= Cut.quantity c)%Z) [Cut.mk 900 2; Cut.mk 400 3] /\
  (Z.of_nat (rowPlacedCount (Component.calculateOptimalCutPlan 2 2000 [Cut.mk 900 2; Cut.mk 400 3])
     (Cut.mk 400 3)) <= requested 400 [Cut.mk 900 2; Cut.mk 400 3])%Z.
Proof.
  assert (H : Forall (fun c => (0 <= Cut.quantity c)%Z) [Cut.mk 900 2; Cut.mk 400 3])
    by (repeat constructor; discriminate).
  split; [exact H | exact (component_rowPlacedCount_le_requested 2 2000 _ (Cut.mk 400 3) H)].
Defined.
